(** * Narrowing-cast plugin: the AST walk and the 64-to-32-bit check

    A shallow embedding of [narrowing_cast_plugin.cc].  The plugin walks the
    body of every function before genericization and warns at each
    initialization, assignment, call argument and return whose value comes
    from a 64-bit numeric type and lands in a 32-bit one.

    GCC's [tree] is a pointer to a tagged node.  Here a node is a value of an
    inductive type, [NULL_TREE] is [None], and a warning or a debug line of
    the plugin is an entry of the trace a function returns. *)

From stdpp Require Import base option strings list.
From Stdlib Require Import ZArith.

Local Open Scope string_scope.
Local Open Scope nat_scope.
Local Open Scope list_scope.
Local Open Scope stdpp_scope.

(** ** Tree codes *)

(** The classes of [tree.def]. *)
Inductive tree_code_class :=
| tcc_exceptional | tcc_constant | tcc_type | tcc_declaration | tcc_reference
| tcc_comparison | tcc_unary | tcc_binary | tcc_statement | tcc_vl_exp
| tcc_expression.

(** Every code the plugin names, a few more that occur in the trees it is
    handed, and [unlisted_code] for the rest of GCC's open-ended vocabulary;
    an unlisted code carries the class [tree.def] gives it. *)
Inductive tree_code :=
| ERROR_MARK | IDENTIFIER_NODE
| VOID_TYPE | INTEGER_TYPE | REAL_TYPE | BOOLEAN_TYPE | POINTER_TYPE
| FUNCTION_TYPE | RECORD_TYPE
| INTEGER_CST | REAL_CST
| FUNCTION_DECL | VAR_DECL | PARM_DECL | FIELD_DECL | TYPE_DECL | RESULT_DECL
| PLUS_EXPR | MINUS_EXPR | MULT_EXPR | TRUNC_DIV_EXPR | CEIL_DIV_EXPR
| FLOOR_DIV_EXPR | ROUND_DIV_EXPR | TRUNC_MOD_EXPR | CEIL_MOD_EXPR
| FLOOR_MOD_EXPR | ROUND_MOD_EXPR | RDIV_EXPR | EXACT_DIV_EXPR | ADDR_EXPR
| FDESC_EXPR | BIT_IOR_EXPR | BIT_XOR_EXPR | BIT_AND_EXPR | BIT_NOT_EXPR
| TRUTH_ANDIF_EXPR | TRUTH_ORIF_EXPR | TRUTH_AND_EXPR | TRUTH_OR_EXPR
| TRUTH_XOR_EXPR | TRUTH_NOT_EXPR | LT_EXPR | LE_EXPR | GT_EXPR | GE_EXPR
| EQ_EXPR | NE_EXPR | UNORDERED_EXPR | ORDERED_EXPR | UNLT_EXPR | UNLE_EXPR
| UNGT_EXPR | UNGE_EXPR | UNEQ_EXPR | LTGT_EXPR | INDIRECT_REF
| COMPOUND_EXPR | MODIFY_EXPR | INIT_EXPR | TARGET_EXPR | COND_EXPR
| VEC_COND_EXPR | VEC_PERM_EXPR | CALL_EXPR | WITH_CLEANUP_EXPR
| CLEANUP_POINT_EXPR | CONSTRUCTOR | COMPOUND_LITERAL_EXPR | SAVE_EXPR
| REALIGN_LOAD_EXPR | CONVERT_EXPR | NOP_EXPR | VIEW_CONVERT_EXPR
| NON_LVALUE_EXPR | ABS_EXPR | LSHIFT_EXPR | RSHIFT_EXPR | LROTATE_EXPR
| RROTATE_EXPR | FLOAT_EXPR | FIX_TRUNC_EXPR | NEGATE_EXPR | COMPONENT_REF
| BIND_EXPR | STATEMENT_LIST | EXPR_STMT | IF_STMT | FOR_STMT | WHILE_STMT
| DO_STMT | SWITCH_STMT | CASE_LABEL_EXPR | DECL_EXPR | RETURN_EXPR
| unlisted_code (class : tree_code_class) (uid : N).

#[global] Instance tree_code_class_eq_dec : EqDecision tree_code_class.
Proof. solve_decision. Defined.

#[global] Instance tree_code_eq_dec : EqDecision tree_code.
Proof. solve_decision. Defined.

(** [TREE_CODE_CLASS], the table of [tree.def], [c-common.def] and
    [cp-tree.def].  The walk consults it only in the [default:] case of its
    descent, that is for the codes its second [switch] does not list:
    [RETURN_EXPR], constants, [FUNCTION_DECL]s and the like. *)
Definition TREE_CODE_CLASS (code : tree_code) : tree_code_class :=
  match code with
  | ERROR_MARK | IDENTIFIER_NODE | CONSTRUCTOR | STATEMENT_LIST =>
      tcc_exceptional
  | VOID_TYPE | INTEGER_TYPE | REAL_TYPE | BOOLEAN_TYPE | POINTER_TYPE
  | FUNCTION_TYPE | RECORD_TYPE => tcc_type
  | INTEGER_CST | REAL_CST => tcc_constant
  | FUNCTION_DECL | VAR_DECL | PARM_DECL | FIELD_DECL | TYPE_DECL
  | RESULT_DECL => tcc_declaration
  | PLUS_EXPR | MINUS_EXPR | MULT_EXPR | TRUNC_DIV_EXPR | CEIL_DIV_EXPR
  | FLOOR_DIV_EXPR | ROUND_DIV_EXPR | TRUNC_MOD_EXPR | CEIL_MOD_EXPR
  | FLOOR_MOD_EXPR | ROUND_MOD_EXPR | RDIV_EXPR | EXACT_DIV_EXPR
  | BIT_IOR_EXPR | BIT_XOR_EXPR | BIT_AND_EXPR | LSHIFT_EXPR | RSHIFT_EXPR
  | LROTATE_EXPR | RROTATE_EXPR => tcc_binary
  | BIT_NOT_EXPR | CONVERT_EXPR | NOP_EXPR | NON_LVALUE_EXPR | ABS_EXPR
  | FLOAT_EXPR | FIX_TRUNC_EXPR | NEGATE_EXPR => tcc_unary
  | LT_EXPR | LE_EXPR | GT_EXPR | GE_EXPR | EQ_EXPR | NE_EXPR
  | UNORDERED_EXPR | ORDERED_EXPR | UNLT_EXPR | UNLE_EXPR | UNGT_EXPR
  | UNGE_EXPR | UNEQ_EXPR | LTGT_EXPR => tcc_comparison
  | INDIRECT_REF | VIEW_CONVERT_EXPR | COMPONENT_REF => tcc_reference
  | CALL_EXPR => tcc_vl_exp
  | ADDR_EXPR | FDESC_EXPR | TRUTH_ANDIF_EXPR | TRUTH_ORIF_EXPR
  | TRUTH_AND_EXPR | TRUTH_OR_EXPR | TRUTH_XOR_EXPR | TRUTH_NOT_EXPR
  | COMPOUND_EXPR | MODIFY_EXPR | INIT_EXPR | TARGET_EXPR | COND_EXPR
  | VEC_COND_EXPR | VEC_PERM_EXPR | WITH_CLEANUP_EXPR | CLEANUP_POINT_EXPR
  | COMPOUND_LITERAL_EXPR | SAVE_EXPR | REALIGN_LOAD_EXPR | BIND_EXPR
  | EXPR_STMT => tcc_expression
  | IF_STMT | FOR_STMT | WHILE_STMT | DO_STMT | SWITCH_STMT
  | CASE_LABEL_EXPR | DECL_EXPR | RETURN_EXPR => tcc_statement
  | unlisted_code class _ => class
  end.

(** [IS_EXPR_CODE_CLASS]: the classes from [tcc_reference] to
    [tcc_expression], whose nodes carry a location of their own. *)
Definition IS_EXPR_CODE_CLASS (class : tree_code_class) : bool :=
  match class with
  | tcc_reference | tcc_comparison | tcc_unary | tcc_binary | tcc_statement
  | tcc_vl_exp | tcc_expression => true
  | _ => false
  end.

(** ** Types *)

(** What [TYPE_NAME] points to: an [IDENTIFIER_NODE] with its spelling, a
    [TYPE_DECL] with its [DECL_NAME], or a node of some other code. *)
Inductive name_tree :=
| identifier_node (IDENTIFIER_POINTER : string)
| type_decl (DECL_NAME : option string)
| other_name.

(** A tree in type position.  [error_mark_node] and [void_type_node] are the
    two global nodes the plugin compares against by address; every other type
    node is a [mk_type].  [main_variant] is [None] for a type that is its own
    main variant (GCC stores a self pointer there).  [arg_types] is the
    [TYPE_ARG_TYPES] chain of a function type, one [TREE_VALUE] per link:
    the chain of a prototype ends with [void_type_node], that of a variadic
    function ends without it. *)
#[local] Unset Elimination Schemes.
Inductive type_tree :=
| error_mark_node
| void_type_node
| mk_type (code : tree_code) (precision : N) (name : option name_tree)
    (main_variant : option type_tree) (arg_types : list (option type_tree)).

Definition TYPE_CODE (type : type_tree) : tree_code :=
  match type with
  | error_mark_node => ERROR_MARK
  | void_type_node => VOID_TYPE
  | mk_type code _ _ _ _ => code
  end.

Definition TYPE_MAIN_VARIANT (type : type_tree) : type_tree :=
  match type with
  | mk_type _ _ _ (Some main) _ => main
  | _ => type
  end.

Definition TYPE_PRECISION (type : type_tree) : N :=
  match type with
  | mk_type _ precision _ _ _ => precision
  | _ => 0%N
  end.

Definition TYPE_NAME (type : type_tree) : option name_tree :=
  match type with
  | error_mark_node => None
  | void_type_node => Some (type_decl (Some "void"))
  | mk_type _ _ name _ _ => name
  end.

Definition TYPE_ARG_TYPES (type : type_tree) : list (option type_tree) :=
  match type with
  | mk_type _ _ _ _ arg_types => arg_types
  | _ => []
  end.

Definition is_error_mark_node (type : type_tree) : bool :=
  match type with error_mark_node => true | _ => false end.

Definition is_void_type_node (type : option type_tree) : bool :=
  match type with Some void_type_node => true | _ => false end.

(** ** Expression, statement and declaration nodes *)

Definition location_t := N.
Bind Scope N_scope with location_t.
Definition UNKNOWN_LOCATION : location_t := 0%N.

(** One node: its code, [TREE_TYPE], the location stored in it, the value of
    a literal ([INTEGER_CST], [REAL_CST]; unused elsewhere), and its children.
    The children of an expression or statement are its operands, so that
    [TREE_OPERAND_LENGTH] is the length of the list; a [CALL_EXPR] keeps
    GCC's layout (operand count, callee, static chain, then the arguments).
    The one child slot of a declaration is its [DECL_INITIAL], and the
    children of a [STATEMENT_LIST] are its statements in order.  Fields the
    plugin never reads ([TREE_CHAIN] of a declaration, [CONSTRUCTOR_ELTS],
    names) are left out.  A tree value has no sharing and no cycle: it is a
    tree-shaped body, and a node that GCC references from two places occurs
    twice, once for each reference. *)
Inductive tree :=
| Node (code : tree_code) (type : option type_tree) (locus : location_t)
    (cst : Z) (slots : list (option tree)).
#[local] Set Elimination Schemes.

Definition TREE_CODE (node : tree) : tree_code :=
  match node with Node code _ _ _ _ => code end.

Definition TREE_TYPE (node : tree) : option type_tree :=
  match node with Node _ type _ _ _ => type end.

Definition operands (node : tree) : list (option tree) :=
  match node with Node _ _ _ _ slots => slots end.

Definition TREE_OPERAND_LENGTH (node : tree) : nat := length (operands node).

(** [TREE_OPERAND (node, i)].  GCC gives every code a fixed number of operand
    slots, so the plugin never indexes past the end of a tree GCC built; a
    slot the list does not have reads as [NULL_TREE]. *)
Definition TREE_OPERAND (node : tree) (i : nat) : option tree :=
  mjoin (operands node !! i).

Definition EXPR_LOCATION (node : tree) : location_t :=
  match node with
  | Node code _ locus _ _ =>
      if IS_EXPR_CODE_CLASS (TREE_CODE_CLASS code) then locus
      else UNKNOWN_LOCATION
  end.

Definition DECL_SOURCE_LOCATION (node : tree) : location_t :=
  match node with Node _ _ locus _ _ => locus end.

Definition DECL_INITIAL (node : tree) : option tree := TREE_OPERAND node 0.

(** The accessors of [tree.h], [c-common.h] and [cp-tree.h] the walk uses. *)
Definition BIND_EXPR_VARS (node : tree) := TREE_OPERAND node 0.
Definition BIND_EXPR_BODY (node : tree) := TREE_OPERAND node 1.
Definition EXPR_STMT_EXPR (node : tree) := TREE_OPERAND node 0.
Definition IF_COND (node : tree) := TREE_OPERAND node 0.
Definition THEN_CLAUSE (node : tree) := TREE_OPERAND node 1.
Definition ELSE_CLAUSE (node : tree) := TREE_OPERAND node 2.
Definition FOR_INIT_STMT (node : tree) := TREE_OPERAND node 0.
Definition FOR_COND (node : tree) := TREE_OPERAND node 1.
Definition FOR_EXPR (node : tree) := TREE_OPERAND node 2.
Definition FOR_BODY (node : tree) := TREE_OPERAND node 3.
Definition WHILE_COND (node : tree) := TREE_OPERAND node 0.
Definition WHILE_BODY (node : tree) := TREE_OPERAND node 1.
Definition DO_COND (node : tree) := TREE_OPERAND node 0.
Definition DO_BODY (node : tree) := TREE_OPERAND node 1.
Definition SWITCH_COND (node : tree) := TREE_OPERAND node 0.
Definition SWITCH_BODY (node : tree) := TREE_OPERAND node 1.
Definition CASE_LOW (node : tree) := TREE_OPERAND node 0.
Definition CASE_HIGH (node : tree) := TREE_OPERAND node 1.
Definition DECL_EXPR_DECL (node : tree) := TREE_OPERAND node 0.
Definition CALL_EXPR_FN (node : tree) := TREE_OPERAND node 1.

(** [FOR_EACH_CALL_EXPR_ARG (arg, iter, node)]: the iterator hands out the
    operands from index 3 on, and the loop runs while [arg] is not null, so
    it ends at the last operand or at the first null one. *)
Fixpoint call_expr_args (slots : list (option tree)) : list tree :=
  match slots with
  | Some arg :: slots => arg :: call_expr_args slots
  | _ => []
  end.

Definition CALL_EXPR_ARGS (node : tree) : list tree :=
  call_expr_args (drop 3 (operands node)).

(** ** The plugin's data *)

Record walk_data := { function_return_type : option type_tree }.

(** A call of [warning_at]: the location and the three strings that fill the
    format ["Y2038 potential issue: lossy conversion from %s to %s in %s"]. *)
Record diagnostic := warning_at {
  diag_location : location_t;
  diag_from : string;
  diag_to : string;
  diag_context : string
}.

(** The trace of a walk: [Traversing] is the debug line printed on entry to
    [traverse_and_check_ast] with a non-null node, [Warning] a diagnostic. *)
Inductive event :=
| Traversing (node : tree)
| Warning (d : diagnostic).

Definition visited (trace : list event) : list tree :=
  omap (λ e, match e with Traversing node => Some node | _ => None end) trace.

Definition diagnostics (trace : list event) : list diagnostic :=
  omap (λ e, match e with Warning d => Some d | _ => None end) trace.

(** ** The helpers *)

Definition get_type_name (type : option type_tree) : string :=
  match type with
  | None => "<null type>"
  | Some type =>
      match TYPE_NAME type with
      | None => "<anonymous type>"
      | Some (identifier_node s) => s
      | Some (type_decl (Some s)) => s
      | Some _ => "<unhandled type name>"
      end
  end.

Definition is_numeric_type (type : option type_tree) : bool :=
  match type with
  | None => false
  | Some type =>
      let type := TYPE_MAIN_VARIANT type in
      bool_decide (TYPE_CODE type = INTEGER_TYPE)
      || bool_decide (TYPE_CODE type = REAL_TYPE)
  end.

(** The codes the peeling loop of [get_original_type] looks through. *)
Definition conversion_wrapper (code : tree_code) : bool :=
  match code with
  | NOP_EXPR | CONVERT_EXPR | VIEW_CONVERT_EXPR | FLOAT_EXPR
  | FIX_TRUNC_EXPR => true
  | _ => false
  end.

(** The [while] loop of [get_original_type]: the value of [current_expr]
    when the loop exits, [None] when it ran into a null operand. *)
Fixpoint peel_conversions (current_expr : tree) : option tree :=
  match current_expr with
  | Node code _ _ _ slots =>
      if conversion_wrapper code then
        match slots with
        | Some operand :: _ => peel_conversions operand
        | _ => None
        end
      else Some current_expr
  end.

Definition get_original_type (expr : option tree) : option type_tree :=
  match expr with
  | None => None
  | Some expr =>
      let current_expr :=
        if bool_decide (TREE_CODE expr = INIT_EXPR) then TREE_OPERAND expr 1
        else Some expr in
      let current_expr := current_expr ≫= peel_conversions in
      match current_expr with
      | Some current_expr => TREE_TYPE current_expr
      | None => TREE_TYPE expr
      end
  end.

Definition check_narrowing_conversion (loc : location_t)
    (to_type : option type_tree) (from_expr : option tree)
    (context : string) : list diagnostic :=
  let from_type := get_original_type from_expr in
  match to_type, from_type with
  | Some to_type, Some from_type =>
      if is_error_mark_node to_type || is_error_mark_node from_type then []
      else if is_numeric_type (Some to_type) && is_numeric_type (Some from_type)
      then
        let from_type_main := TYPE_MAIN_VARIANT from_type in
        let to_type_main := TYPE_MAIN_VARIANT to_type in
        let from_code := TYPE_CODE from_type_main in
        let to_code := TYPE_CODE to_type_main in
        let from_precision := TYPE_PRECISION from_type in
        let to_precision := TYPE_PRECISION to_type in
        let standard_narrowing :=
          bool_decide (from_precision = 64%N)
          && bool_decide (to_precision = 32%N)
          && bool_decide (from_code = to_code) in
        let int64_to_float :=
          bool_decide (from_code = INTEGER_TYPE)
          && bool_decide (from_precision = 64%N)
          && bool_decide (to_code = REAL_TYPE)
          && bool_decide (to_precision = 32%N) in
        let double_to_int32 :=
          bool_decide (from_code = REAL_TYPE)
          && bool_decide (from_precision = 64%N)
          && bool_decide (to_code = INTEGER_TYPE)
          && bool_decide (to_precision = 32%N) in
        if standard_narrowing || int64_to_float || double_to_int32 then
          [warning_at loc (get_type_name (Some from_type))
             (get_type_name (Some to_type)) context]
        else []
      else []
  | _, _ => []
  end.

(** The loop of [get_fndecl_from_callee_expr] on a non-null callee. *)
Fixpoint peel_callee (callee : tree) : option tree :=
  match callee with
  | Node code _ _ _ slots =>
      match code with
      | FUNCTION_DECL => Some callee
      | ADDR_EXPR | NOP_EXPR | CONVERT_EXPR =>
          match slots with
          | Some operand :: _ => peel_callee operand
          | _ => None
          end
      | _ => None
      end
  end.

Definition get_fndecl_from_callee_expr (callee : option tree) : option tree :=
  callee ≫= peel_callee.

(** ** The walk *)

(** The loop over the arguments in the [CALL_EXPR] case: one turn per
    argument, with [arg_types] advancing along the parameter chain. *)
Fixpoint check_call_args (loc : location_t)
    (arg_types : list (option type_tree)) (args : list tree)
    : list diagnostic :=
  match args with
  | [] => []
  | arg :: args =>
      match arg_types with
      | [] => []
      | param_type :: chain =>
          if is_void_type_node param_type then []
          else
            (match param_type with
             | Some _ =>
                 check_narrowing_conversion loc param_type (Some arg)
                   "function argument"
             | None => []
             end) ++ check_call_args loc chain args
      end
  end.

(** The first [switch] of [traverse_and_check_ast]: the check made at the
    node itself, before its children are looked at.  [input_location] is the
    global the plugin falls back to.  The two places where the plugin
    dereferences without a test, [TREE_TYPE (lhs)] and
    [TYPE_ARG_TYPES (fntype)], read from nodes GCC never leaves null; the
    model reads a null there as an absent type. *)
Definition check_current_node (input_location : location_t) (node : tree)
    (data : walk_data) : list diagnostic :=
  let loc := EXPR_LOCATION node in
  let loc :=
    if bool_decide (loc = UNKNOWN_LOCATION) then input_location else loc in
  match TREE_CODE node with
  | VAR_DECL =>
      let initializer := DECL_INITIAL node in
      match initializer with
      | Some _ =>
          let to_type := TREE_TYPE node in
          check_narrowing_conversion (DECL_SOURCE_LOCATION node) to_type
            initializer "variable initialization"
      | None => []
      end
  | MODIFY_EXPR =>
      let lhs := TREE_OPERAND node 0 in
      let rhs := TREE_OPERAND node 1 in
      check_narrowing_conversion loc (lhs ≫= TREE_TYPE) rhs "assignment"
  | CALL_EXPR =>
      match get_fndecl_from_callee_expr (CALL_EXPR_FN node) with
      | None => []
      | Some fn_decl =>
          let fntype := TREE_TYPE fn_decl in
          let arg_types := from_option TYPE_ARG_TYPES [] fntype in
          check_call_args loc arg_types (CALL_EXPR_ARGS node)
      end
  | RETURN_EXPR =>
      match TREE_OPERAND node 0 with
      | Some _ =>
          let retval := TREE_OPERAND node 0 in
          check_narrowing_conversion loc (function_return_type data) retval
            "return value"
      | None => []
      end
  | _ => []
  end.

(** [traverse_and_check_ast] on a non-null node.  [operand] holds, slot by
    slot, the trace of the recursive call on that child (empty for a null
    child, which the callee returns from at once); [walk i] is the trace of
    the call on child [i].  The second [switch] picks, in the order of the
    source, the calls the plugin makes. *)
Fixpoint traverse_node (input_location : location_t) (data : walk_data)
    (node : tree) {struct node} : list event :=
  match node with
  | Node code _ _ _ slots =>
      let operand :=
        map (λ child,
               match child with
               | Some child => traverse_node input_location data child
               | None => []
               end) slots in
      let walk i := default [] (operand !! i) in
      Traversing node
        :: (Warning <$> check_current_node input_location node data)
        ++ match code with
           | PLUS_EXPR | MINUS_EXPR | MULT_EXPR | TRUNC_DIV_EXPR
           | CEIL_DIV_EXPR | FLOOR_DIV_EXPR | ROUND_DIV_EXPR
           | TRUNC_MOD_EXPR | CEIL_MOD_EXPR | FLOOR_MOD_EXPR | ROUND_MOD_EXPR
           | RDIV_EXPR | EXACT_DIV_EXPR | ADDR_EXPR | FDESC_EXPR
           | BIT_IOR_EXPR | BIT_XOR_EXPR | BIT_AND_EXPR | BIT_NOT_EXPR
           | TRUTH_ANDIF_EXPR | TRUTH_ORIF_EXPR | TRUTH_AND_EXPR
           | TRUTH_OR_EXPR | TRUTH_XOR_EXPR | TRUTH_NOT_EXPR | LT_EXPR
           | LE_EXPR | GT_EXPR | GE_EXPR | EQ_EXPR | NE_EXPR
           | UNORDERED_EXPR | ORDERED_EXPR | UNLT_EXPR | UNLE_EXPR
           | UNGT_EXPR | UNGE_EXPR | UNEQ_EXPR | LTGT_EXPR
           | INDIRECT_REF | COMPOUND_EXPR | MODIFY_EXPR | INIT_EXPR
           | TARGET_EXPR | COND_EXPR | VEC_COND_EXPR | VEC_PERM_EXPR
           | CALL_EXPR | WITH_CLEANUP_EXPR | CLEANUP_POINT_EXPR
           | CONSTRUCTOR | COMPOUND_LITERAL_EXPR | SAVE_EXPR
           | REALIGN_LOAD_EXPR | CONVERT_EXPR | NOP_EXPR | VIEW_CONVERT_EXPR
           | NON_LVALUE_EXPR | ABS_EXPR
           | LSHIFT_EXPR | RSHIFT_EXPR | LROTATE_EXPR | RROTATE_EXPR
           | FLOAT_EXPR | FIX_TRUNC_EXPR =>
               concat operand
           | BIND_EXPR => walk 0 ++ walk 1
           | STATEMENT_LIST => concat operand
           | EXPR_STMT => walk 0
           | IF_STMT => walk 0 ++ walk 1 ++ walk 2
           | FOR_STMT => walk 0 ++ walk 1 ++ walk 2 ++ walk 3
           | WHILE_STMT => walk 0 ++ walk 1
           | DO_STMT => walk 1 ++ walk 0
           | SWITCH_STMT => walk 0 ++ walk 1
           | CASE_LABEL_EXPR => walk 0 ++ walk 1
           | DECL_EXPR => walk 0
           | VAR_DECL | PARM_DECL | FIELD_DECL => walk 0
           | _ =>
               if bool_decide (TREE_CODE_CLASS code = tcc_expression)
               then concat operand
               else []
           end
  end.

Definition traverse_and_check_ast (input_location : location_t)
    (node : option tree) (data : walk_data) : list event :=
  match node with
  | None => []
  | Some node => traverse_node input_location data node
  end.

(** The second [switch] with its recursive calls spelled as in the source;
    [traverse_and_check_ast_unfold] below relates it to [traverse_node]. *)
Definition descend (input_location : location_t) (data : walk_data)
    (node : tree) : list event :=
  let walk child := traverse_and_check_ast input_location child data in
  match TREE_CODE node with
  | PLUS_EXPR | MINUS_EXPR | MULT_EXPR | TRUNC_DIV_EXPR
  | CEIL_DIV_EXPR | FLOOR_DIV_EXPR | ROUND_DIV_EXPR
  | TRUNC_MOD_EXPR | CEIL_MOD_EXPR | FLOOR_MOD_EXPR | ROUND_MOD_EXPR
  | RDIV_EXPR | EXACT_DIV_EXPR | ADDR_EXPR | FDESC_EXPR
  | BIT_IOR_EXPR | BIT_XOR_EXPR | BIT_AND_EXPR | BIT_NOT_EXPR
  | TRUTH_ANDIF_EXPR | TRUTH_ORIF_EXPR | TRUTH_AND_EXPR
  | TRUTH_OR_EXPR | TRUTH_XOR_EXPR | TRUTH_NOT_EXPR | LT_EXPR
  | LE_EXPR | GT_EXPR | GE_EXPR | EQ_EXPR | NE_EXPR
  | UNORDERED_EXPR | ORDERED_EXPR | UNLT_EXPR | UNLE_EXPR
  | UNGT_EXPR | UNGE_EXPR | UNEQ_EXPR | LTGT_EXPR
  | INDIRECT_REF | COMPOUND_EXPR | MODIFY_EXPR | INIT_EXPR
  | TARGET_EXPR | COND_EXPR | VEC_COND_EXPR | VEC_PERM_EXPR
  | CALL_EXPR | WITH_CLEANUP_EXPR | CLEANUP_POINT_EXPR
  | CONSTRUCTOR | COMPOUND_LITERAL_EXPR | SAVE_EXPR
  | REALIGN_LOAD_EXPR | CONVERT_EXPR | NOP_EXPR | VIEW_CONVERT_EXPR
  | NON_LVALUE_EXPR | ABS_EXPR
  | LSHIFT_EXPR | RSHIFT_EXPR | LROTATE_EXPR | RROTATE_EXPR
  | FLOAT_EXPR | FIX_TRUNC_EXPR =>
      operands node ≫= walk
  | BIND_EXPR => walk (BIND_EXPR_VARS node) ++ walk (BIND_EXPR_BODY node)
  | STATEMENT_LIST => operands node ≫= walk
  | EXPR_STMT => walk (EXPR_STMT_EXPR node)
  | IF_STMT =>
      walk (IF_COND node) ++ walk (THEN_CLAUSE node)
        ++ walk (ELSE_CLAUSE node)
  | FOR_STMT =>
      walk (FOR_INIT_STMT node) ++ walk (FOR_COND node)
        ++ walk (FOR_EXPR node) ++ walk (FOR_BODY node)
  | WHILE_STMT => walk (WHILE_COND node) ++ walk (WHILE_BODY node)
  | DO_STMT => walk (DO_BODY node) ++ walk (DO_COND node)
  | SWITCH_STMT => walk (SWITCH_COND node) ++ walk (SWITCH_BODY node)
  | CASE_LABEL_EXPR => walk (CASE_LOW node) ++ walk (CASE_HIGH node)
  | DECL_EXPR => walk (DECL_EXPR_DECL node)
  | VAR_DECL | PARM_DECL | FIELD_DECL => walk (DECL_INITIAL node)
  | code =>
      if bool_decide (TREE_CODE_CLASS code = tcc_expression)
      then operands node ≫= walk
      else []
  end.

(** ** The vocabulary of the specification *)

(** *** The classifier: kind and bit width *)

Inductive numeric_kind := kind_integer | kind_floating | kind_other.

#[global] Instance numeric_kind_eq_dec : EqDecision numeric_kind.
Proof. solve_decision. Defined.

(** The kind of a type is read from its main variant, its width from the
    type itself. *)
Definition kind_of (type : type_tree) : numeric_kind :=
  match TYPE_CODE (TYPE_MAIN_VARIANT type) with
  | INTEGER_TYPE => kind_integer
  | REAL_TYPE => kind_floating
  | _ => kind_other
  end.

Definition bit_width (type : type_tree) : N := TYPE_PRECISION type.

Definition same_kind_narrowing (from to : type_tree) : Prop :=
  (kind_of from = kind_integer ∧ kind_of to = kind_integer
   ∨ kind_of from = kind_floating ∧ kind_of to = kind_floating)
  ∧ bit_width from = 64%N ∧ bit_width to = 32%N.

Definition wide_integer_to_narrow_float (from to : type_tree) : Prop :=
  kind_of from = kind_integer ∧ bit_width from = 64%N
  ∧ kind_of to = kind_floating ∧ bit_width to = 32%N.

Definition wide_float_to_narrow_integer (from to : type_tree) : Prop :=
  kind_of from = kind_floating ∧ bit_width from = 64%N
  ∧ kind_of to = kind_integer ∧ bit_width to = 32%N.

(** The three patterns of the classifier. *)
Definition is_narrowing (from to : type_tree) : Prop :=
  same_kind_narrowing from to
  ∨ wide_integer_to_narrow_float from to
  ∨ wide_float_to_narrow_integer from to.

(** A type that is null or the error placeholder. *)
Definition indeterminate (type : option type_tree) : Prop :=
  type = None ∨ type = Some error_mark_node.

(** Two handles on one logical type: the same main variant and the same
    width, as a qualified or typedef variant has. *)
Definition variant_of (type type' : type_tree) : Prop :=
  is_error_mark_node type = false ∧ is_error_mark_node type' = false
  ∧ TYPE_MAIN_VARIANT type = TYPE_MAIN_VARIANT type'
  ∧ TYPE_PRECISION type = TYPE_PRECISION type'.

(** *** Conversion wrappers *)

(** One wrapper layer: everything of the node but its single operand. *)
Record wrapper := {
  wrapper_code : tree_code;
  wrapper_type : option type_tree;
  wrapper_locus : location_t;
  wrapper_cst : Z
}.

Definition pure_conversion (w : wrapper) : Prop :=
  conversion_wrapper (wrapper_code w) = true.

Definition wrap (w : wrapper) (e : tree) : tree :=
  Node (wrapper_code w) (wrapper_type w) (wrapper_locus w) (wrapper_cst w)
    [Some e].

(** [wrap_all [w1; ...; wn] e] is [e] under [n] layers, [w1] outermost. *)
Definition wrap_all (ws : list wrapper) (e : tree) : tree := foldr wrap e ws.

(** *** Call arguments *)

(** The parameters before the marker that ends a prototype's list. *)
Fixpoint fixed_parameters (arg_types : list (option type_tree))
    : list (option type_tree) :=
  match arg_types with
  | [] => []
  | param_type :: chain =>
      if is_void_type_node param_type then []
      else param_type :: fixed_parameters chain
  end.

(** Parameters and arguments paired in order, up to the shorter list, and
    the independent check of each pair. *)
Definition paired_checks (loc : location_t)
    (arg_types : list (option type_tree)) (args : list tree)
    : list diagnostic :=
  zip (fixed_parameters arg_types) args
    ≫= λ pair,
         check_narrowing_conversion loc pair.1 (Some pair.2)
           "function argument".

(** The location a check at [node] reports. *)
Definition location_of (input_location : location_t) (node : tree)
    : location_t :=
  if bool_decide (EXPR_LOCATION node = UNKNOWN_LOCATION) then input_location
  else EXPR_LOCATION node.

(** *** Minimal trees with one checkpoint *)

(** The type of a function declared with the given parameter types. *)
Definition prototype (parameters : list type_tree) : type_tree :=
  mk_type FUNCTION_TYPE 8 None None
    ((Some <$> parameters) ++ [Some void_type_node]).

(** A direct call of a function of type [fntype]: the operand count, the
    address of the declaration, no static chain, then the arguments. *)
Definition direct_call (fntype : type_tree) (locus : location_t)
    (args : list tree) : tree :=
  Node CALL_EXPR (Some void_type_node) locus 0
    ([Some (Node INTEGER_CST None 0 (Z.of_nat (3 + length args)) []);
      Some (Node ADDR_EXPR None locus 0
              [Some (Node FUNCTION_DECL (Some fntype) 0 0 [None])]);
      None]
       ++ (Some <$> args)).

(** A subtree whose walk reports nothing. *)
Definition quiet (input_location : location_t) (data : walk_data)
    (node : tree) : Prop :=
  diagnostics (traverse_and_check_ast input_location (Some node) data) = [].

(** *** Nodes of a tree and the edges the walk follows *)

(** Every node of a tree, parents before children. *)
Fixpoint all_nodes (node : tree) : list tree :=
  match node with
  | Node _ _ _ _ slots =>
      node
        :: concat
             (map (λ child,
                     match child with
                     | Some child => all_nodes child
                     | None => []
                     end) slots)
  end.

(** The operator and wrapper kinds whose operands are all descended into. *)
Definition operand_kind (code : tree_code) : bool :=
  match code with
  | PLUS_EXPR | MINUS_EXPR | MULT_EXPR | TRUNC_DIV_EXPR | CEIL_DIV_EXPR
  | FLOOR_DIV_EXPR | ROUND_DIV_EXPR | TRUNC_MOD_EXPR | CEIL_MOD_EXPR
  | FLOOR_MOD_EXPR | ROUND_MOD_EXPR | RDIV_EXPR | EXACT_DIV_EXPR | ADDR_EXPR
  | FDESC_EXPR | BIT_IOR_EXPR | BIT_XOR_EXPR | BIT_AND_EXPR | BIT_NOT_EXPR
  | TRUTH_ANDIF_EXPR | TRUTH_ORIF_EXPR | TRUTH_AND_EXPR | TRUTH_OR_EXPR
  | TRUTH_XOR_EXPR | TRUTH_NOT_EXPR | LT_EXPR | LE_EXPR | GT_EXPR | GE_EXPR
  | EQ_EXPR | NE_EXPR | UNORDERED_EXPR | ORDERED_EXPR | UNLT_EXPR | UNLE_EXPR
  | UNGT_EXPR | UNGE_EXPR | UNEQ_EXPR | LTGT_EXPR | INDIRECT_REF
  | COMPOUND_EXPR | MODIFY_EXPR | INIT_EXPR | TARGET_EXPR | COND_EXPR
  | VEC_COND_EXPR | VEC_PERM_EXPR | CALL_EXPR | WITH_CLEANUP_EXPR
  | CLEANUP_POINT_EXPR | CONSTRUCTOR | COMPOUND_LITERAL_EXPR | SAVE_EXPR
  | REALIGN_LOAD_EXPR | CONVERT_EXPR | NOP_EXPR | VIEW_CONVERT_EXPR
  | NON_LVALUE_EXPR | ABS_EXPR | LSHIFT_EXPR | RSHIFT_EXPR | LROTATE_EXPR
  | RROTATE_EXPR | FLOAT_EXPR | FIX_TRUNC_EXPR => true
  | _ => false
  end.

(** The child-enumeration table of the descent: for each kind, the child
    slots visited, in visiting order.  A kind the table does not know is
    descended through all operands when it is of class expression, and is a
    leaf otherwise. *)
Definition descent_slots (node : tree) : list nat :=
  let code := TREE_CODE node in
  if operand_kind code then seq 0 (TREE_OPERAND_LENGTH node)
  else
    match code with
    | STATEMENT_LIST => seq 0 (TREE_OPERAND_LENGTH node)
    | BIND_EXPR => [0; 1]
    | EXPR_STMT => [0]
    | IF_STMT => [0; 1; 2]
    | FOR_STMT => [0; 1; 2; 3]
    | WHILE_STMT => [0; 1]
    | DO_STMT => [1; 0]
    | SWITCH_STMT => [0; 1]
    | CASE_LABEL_EXPR => [0; 1]
    | DECL_EXPR => [0]
    | VAR_DECL | PARM_DECL | FIELD_DECL => [0]
    | _ =>
        if bool_decide (TREE_CODE_CLASS code = tcc_expression)
        then seq 0 (TREE_OPERAND_LENGTH node)
        else []
    end.

(** The nodes reachable from [node] along descent edges only, in visiting
    order. *)
Fixpoint descent_closure (node : tree) : list tree :=
  match node with
  | Node _ _ _ _ slots =>
      let below :=
        map (λ child,
               match child with
               | Some child => descent_closure child
               | None => []
               end) slots in
      node :: (descent_slots node ≫= λ i, default [] (below !! i))
  end.

(** The nodes, and the descent closure, below a child slot. *)
Definition nodes_below (child : option tree) : list tree :=
  from_option all_nodes [] child.

Definition closure_below (child : option tree) : list tree :=
  from_option descent_closure [] child.

(** The child slots of a node that the table leaves out. *)
Definition unlisted_slots (node : tree) : list nat :=
  filter (λ i, i ∉ descent_slots node) (seq 0 (TREE_OPERAND_LENGTH node)).

(** A node all of whose children are descended into: every slot the table
    leaves out is null. *)
Definition descends_fully (node : tree) : Prop :=
  Forall (λ i, TREE_OPERAND node i = None) (unlisted_slots node).

(** *** Literal values *)

(** The tree with every literal value blanked: two trees that differ in the
    values of literals only have the same image. *)
Fixpoint erase_literals (node : tree) : tree :=
  match node with
  | Node code type locus _ slots =>
      Node code type locus 0
        (map (λ child,
                match child with
                | Some child => Some (erase_literals child)
                | None => None
                end) slots)
  end.

(** ** The plugin on the trees of its own test file *)

Module Fixture.

Definition long_int : type_tree :=
  mk_type INTEGER_TYPE 64 (Some (type_decl (Some "long int"))) None [].
Definition int : type_tree :=
  mk_type INTEGER_TYPE 32 (Some (type_decl (Some "int"))) None [].
Definition double : type_tree :=
  mk_type REAL_TYPE 64 (Some (type_decl (Some "double"))) None [].
Definition float : type_tree :=
  mk_type REAL_TYPE 32 (Some (type_decl (Some "float"))) None [].

(** [int64_t] and [int32_t]: typedef variants of [long int] and [int]. *)
Definition int64_t : type_tree :=
  mk_type INTEGER_TYPE 64 (Some (type_decl (Some "int64_t")))
    (Some long_int) [].
Definition int32_t : type_tree :=
  mk_type INTEGER_TYPE 32 (Some (type_decl (Some "int32_t"))) (Some int) [].

Definition data (return_type : type_tree) : walk_data :=
  {| function_return_type := Some return_type |}.

(** A use of a local variable, and a literal. *)
Definition var (type : type_tree) : tree :=
  Node VAR_DECL (Some type) 1 0 [None].
Definition literal (type : type_tree) (value : Z) : tree :=
  Node INTEGER_CST (Some type) 0 value [].
Definition convert (type : type_tree) (e : tree) : tree :=
  Node NOP_EXPR (Some type) 0 0 [Some e].

(** [return i64;] in a function returning [int32_t]: the front end builds
    [RETURN_EXPR <INIT_EXPR <<retval>, (int32_t) i64>>]. *)
Definition return_i64 : tree :=
  Node RETURN_EXPR (Some void_type_node) 9 0
    [Some (Node INIT_EXPR (Some int32_t) 9 0
             [Some (Node RESULT_DECL (Some int32_t) 7 0 [None]);
              Some (convert int32_t (var int64_t))])].

(** [i32 = i64;] *)
Definition assign_i64 : tree :=
  Node MODIFY_EXPR (Some int32_t) 36 0
    [Some (var int32_t); Some (convert int32_t (var int64_t))].

(** [int64_t no_warn_i64 = no_warn_i32;] *)
Definition widen_i32 : tree :=
  Node VAR_DECL (Some int64_t) 35 0 [Some (convert int64_t (var int32_t))].

(** [takes_32bit_float (i64);] *)
Definition takes_32bit_float : tree :=
  Node FUNCTION_DECL
    (Some (mk_type FUNCTION_TYPE 8 None None
             [Some float; Some void_type_node])) 5 0 [None].
Definition call_float_i64 : tree :=
  Node CALL_EXPR (Some void_type_node) 56 0
    [Some (literal int 4);
     Some (Node ADDR_EXPR (Some (mk_type POINTER_TYPE 64 None None [])) 56 0
             [Some takes_32bit_float]);
     None;
     Some (Node FLOAT_EXPR (Some float) 56 0 [Some (var int64_t)])].

(** [return takes_32bit_float (i64), 0;] shaped as a returned value that
    holds a call with a narrowing argument. *)
Definition return_nested_call : tree :=
  Node RETURN_EXPR (Some void_type_node) 60 0
    [Some (Node INIT_EXPR (Some int32_t) 60 0
             [Some (Node RESULT_DECL (Some int32_t) 7 0 [None]);
              Some (Node COMPOUND_EXPR (Some int32_t) 60 0
                      [Some call_float_i64; Some (literal int32_t 0)])])].

(** A call through a pointer to a function taking an [int32_t]:
    [fp (i64)]. *)
Definition function_pointer : type_tree :=
  mk_type POINTER_TYPE 64 None None [].
Definition call_through_pointer : tree :=
  Node CALL_EXPR (Some void_type_node) 70 0
    [Some (literal int 4);
     Some (Node PARM_DECL (Some function_pointer) 69 0 [None]);
     None;
     Some (convert int32_t (var int64_t))].

(** [void g (int32_t, float = 0)] called as [g (i64)] with the second
    argument left out of the call node. *)
Definition two_parameters : tree :=
  Node FUNCTION_DECL
    (Some (mk_type FUNCTION_TYPE 8 None None
             [Some int32_t; Some float; Some void_type_node])) 5 0 [None].
Definition call_one_of_two : tree :=
  Node CALL_EXPR (Some void_type_node) 80 0
    [Some (literal int 4);
     Some (Node ADDR_EXPR (Some function_pointer) 80 0
             [Some two_parameters]);
     None;
     Some (convert int32_t (var int64_t))].

(** Wrapper layers: [(float) (double) e]. *)
Definition to_float : wrapper :=
  {| wrapper_code := NOP_EXPR; wrapper_type := Some float;
     wrapper_locus := 4; wrapper_cst := 0 |}.
Definition to_double : wrapper :=
  {| wrapper_code := FLOAT_EXPR; wrapper_type := Some double;
     wrapper_locus := 4; wrapper_cst := 0 |}.
Definition to_int32 : wrapper :=
  {| wrapper_code := NOP_EXPR; wrapper_type := Some int32_t;
     wrapper_locus := 9; wrapper_cst := 0 |}.

(** [<retval> = i64] as the front end builds it for a return. *)
Definition init_retval : tree :=
  Node INIT_EXPR (Some int32_t) 9 0
    [Some (Node RESULT_DECL (Some int32_t) 7 0 [None]);
     Some (var int64_t)].

(** [int64_t i64 = 9007199254740992LL; float f32 = i64;] and the same
    two statements with the literal 1. *)
Definition int_to_float_body (value : Z) : tree :=
  Node STATEMENT_LIST (Some void_type_node) 0 0
    [Some (Node DECL_EXPR (Some void_type_node) 78 0
             [Some (Node VAR_DECL (Some int64_t) 78 0
                      [Some (literal int64_t value)])]);
     Some (Node DECL_EXPR (Some void_type_node) 79 0
             [Some (Node VAR_DECL (Some float) 79 0
                      [Some (Node FLOAT_EXPR (Some float) 79 0
                               [Some (var int64_t)])])])].

(** [-(i32 = i64);]: an assignment under a negation, a kind the descent
    does not list. *)
Definition negated_assignment : tree :=
  Node EXPR_STMT (Some void_type_node) 90 0
    [Some (Node NEGATE_EXPR (Some int32_t) 90 0 [Some assign_i64])].

(** That statement followed by [return i64;]. *)
Definition body_with_unvisited_nodes : tree :=
  Node STATEMENT_LIST (Some void_type_node) 0 0
    [Some negated_assignment; Some return_i64].

(** [fp (i32 = i64)]: a call through a pointer whose argument is an
    assignment. *)
Definition call_through_pointer_nested : tree :=
  Node CALL_EXPR (Some void_type_node) 70 0
    [Some (literal int 4);
     Some (Node PARM_DECL (Some function_pointer) 69 0 [None]);
     None;
     Some assign_i64].

(** [{ int32_t x = (int32_t) i64; }] with the one declaration of [x]
    written out at both places that refer to it, the variable list of the
    block and the declaration statement. *)
Definition declared_x : tree :=
  Node VAR_DECL (Some int32_t) 41 0 [Some (convert int32_t (var int64_t))].
Definition block_declaring_x : tree :=
  Node BIND_EXPR (Some void_type_node) 40 0
    [Some declared_x;
     Some (Node DECL_EXPR (Some void_type_node) 41 0 [Some declared_x]);
     None].

End Fixture.


(** ** The driver *)

(** The function the callback is handed: its saved body and its result
    declaration. *)
Record function_decl := {
  DECL_SAVED_TREE : option tree;
  DECL_RESULT : option tree
}.

(** [pre_genericize_callback]: nothing for a null [gcc_data] or a function
    without a saved body, else the walk of the body with the type of the
    result declaration as return type.  The plugin reads
    [TREE_TYPE (DECL_RESULT (fndecl))] without a test; GCC gives every
    function with a body a result declaration, and the model reads an
    absent one as an absent type. *)
Definition pre_genericize_callback (input_location : location_t)
    (gcc_data : option function_decl) : list event :=
  match gcc_data with
  | None => []
  | Some fndecl =>
      match DECL_SAVED_TREE fndecl with
      | None => []
      | Some body =>
          let data :=
            {| function_return_type := DECL_RESULT fndecl ≫= TREE_TYPE |} in
          traverse_and_check_ast input_location (Some body) data
      end
  end.

(** ** More vocabulary *)

(** The four codes at which the first [switch] makes a check. *)
Definition checkpoint_code (code : tree_code) : bool :=
  match code with
  | VAR_DECL | MODIFY_EXPR | CALL_EXPR | RETURN_EXPR => true
  | _ => false
  end.

(** The four context labels. *)
Definition context_labels : list string :=
  ["variable initialization"; "assignment"; "function argument";
   "return value"].

(** The codes [get_fndecl_from_callee_expr] looks through. *)
Definition callee_wrapper (code : tree_code) : bool :=
  match code with
  | ADDR_EXPR | NOP_EXPR | CONVERT_EXPR => true
  | _ => false
  end.

(** A destination type a narrowing can land in: determinate, numeric and
    32 bits wide. *)
Definition narrow_target (type : option type_tree) : Prop :=
  ∃ to_type, type = Some to_type ∧ is_error_mark_node to_type = false
             ∧ kind_of to_type ≠ kind_other ∧ bit_width to_type = 32%N.

(** * Properties *)

(** ** Induction on trees *)

(** The induction principle with the hypothesis on every child. *)
Lemma tree_ind (P : tree → Prop) :
  (∀ code type locus cst slots,
     Forall (λ child, ∀ c, child = Some c → P c) slots →
     P (Node code type locus cst slots)) →
  ∀ node, P node.
Proof.
  intros step. fix IH 1. intros [code type locus cst slots].
  apply step. induction slots as [|child slots IHslots]; constructor; [|done].
  destruct child as [c|]; intros c' [= <-]. apply IH.
Qed.

(** ** The classifier *)

Lemma kind_of_integer type :
  kind_of type = kind_integer ↔ TYPE_CODE (TYPE_MAIN_VARIANT type) = INTEGER_TYPE.
Proof. unfold kind_of. destruct (TYPE_CODE _); split; congruence. Qed.

Lemma kind_of_floating type :
  kind_of type = kind_floating ↔ TYPE_CODE (TYPE_MAIN_VARIANT type) = REAL_TYPE.
Proof. unfold kind_of. destruct (TYPE_CODE _); split; congruence. Qed.

Lemma is_numeric_type_kind type :
  is_numeric_type (Some type) = true ↔ kind_of type ≠ kind_other.
Proof.
  unfold is_numeric_type, kind_of.
  destruct (TYPE_CODE _); repeat case_bool_decide; cbn; split; congruence.
Qed.

(** The decision of the source, as a proposition on codes and widths. *)
Lemma is_narrowing_codes from to :
  is_narrowing from to ↔
  let from_code := TYPE_CODE (TYPE_MAIN_VARIANT from) in
  let to_code := TYPE_CODE (TYPE_MAIN_VARIANT to) in
  (from_code = INTEGER_TYPE ∨ from_code = REAL_TYPE)
  ∧ (to_code = INTEGER_TYPE ∨ to_code = REAL_TYPE)
  ∧ TYPE_PRECISION from = 64%N ∧ TYPE_PRECISION to = 32%N.
Proof.
  unfold is_narrowing, same_kind_narrowing, wide_integer_to_narrow_float,
    wide_float_to_narrow_integer, bit_width.
  rewrite !kind_of_integer, !kind_of_floating. cbn. tauto.
Qed.

Lemma check_narrowing_conversion_detects loc to_type from_expr context from_type :
  get_original_type from_expr = Some from_type →
  is_error_mark_node to_type = false →
  is_error_mark_node from_type = false →
  is_narrowing from_type to_type →
  check_narrowing_conversion loc (Some to_type) from_expr context
  = [warning_at loc (get_type_name (Some from_type))
       (get_type_name (Some to_type)) context].
Proof.
  intros Horigin Hto Hfrom Hnarrow%is_narrowing_codes. cbn in Hnarrow.
  unfold check_narrowing_conversion, is_numeric_type.
  rewrite Horigin, Hto, Hfrom. cbn.
  destruct Hnarrow as ([Hf|Hf] & [Ht|Ht] & -> & ->); rewrite Hf, Ht; done.
Qed.

Lemma check_narrowing_conversion_passes loc to_type from_expr context from_type :
  get_original_type from_expr = Some from_type →
  ¬ is_narrowing from_type to_type →
  check_narrowing_conversion loc (Some to_type) from_expr context = [].
Proof.
  intros Horigin Hnarrow. rewrite is_narrowing_codes in Hnarrow.
  cbn in Hnarrow.
  unfold check_narrowing_conversion, is_numeric_type. rewrite Horigin.
  destruct (is_error_mark_node to_type || is_error_mark_node from_type);
    [done|].
  repeat case_bool_decide; cbn; try done; exfalso; apply Hnarrow;
    intuition congruence.
Qed.

Lemma check_narrowing_conversion_null_target loc from_expr context :
  check_narrowing_conversion loc None from_expr context = [].
Proof. done. Qed.

Lemma check_narrowing_conversion_null_origin loc to_type from_expr context :
  get_original_type from_expr = None →
  check_narrowing_conversion loc to_type from_expr context = [].
Proof.
  intros Horigin. unfold check_narrowing_conversion. rewrite Horigin.
  by destruct to_type.
Qed.

(** C2.  For every pair of types that are neither null nor the error
    placeholder, the check warns exactly when the pair matches one of the
    three patterns over kind and bit width (same kind 64 to 32, 64-bit integer
    to 32-bit floating, 64-bit floating to 32-bit integer) and stays silent
    for every other pair, in particular when either type is not numeric. *)
Theorem check_narrowing_conversion_three_patterns
    loc to_type from_expr context from_type :
  get_original_type from_expr = Some from_type →
  is_error_mark_node to_type = false →
  is_error_mark_node from_type = false →
  (is_narrowing from_type to_type →
   check_narrowing_conversion loc (Some to_type) from_expr context
   = [warning_at loc (get_type_name (Some from_type))
        (get_type_name (Some to_type)) context])
  ∧ (¬ is_narrowing from_type to_type →
     check_narrowing_conversion loc (Some to_type) from_expr context = [])
  ∧ (kind_of from_type = kind_other ∨ kind_of to_type = kind_other →
     check_narrowing_conversion loc (Some to_type) from_expr context = []).
Proof.
  intros Horigin Hto Hfrom. split_and!.
  - by apply check_narrowing_conversion_detects.
  - by apply check_narrowing_conversion_passes.
  - intros Hother. eapply check_narrowing_conversion_passes; [done|].
    unfold is_narrowing, same_kind_narrowing, wide_integer_to_narrow_float,
      wide_float_to_narrow_integer.
    destruct Hother as [Hother | Hother]; rewrite Hother;
      intuition congruence.
Qed.

Lemma check_narrowing_conversion_three_patterns_witness :
  let from_expr := Some (Fixture.var Fixture.int64_t) in
  (is_narrowing Fixture.int64_t Fixture.float →
   check_narrowing_conversion 7 (Some Fixture.float) from_expr "assignment"
   = [warning_at 7 "int64_t" "float" "assignment"])
  ∧ (¬ is_narrowing Fixture.int64_t Fixture.float →
     check_narrowing_conversion 7 (Some Fixture.float) from_expr "assignment"
     = [])
  ∧ (kind_of Fixture.int64_t = kind_other ∨ kind_of Fixture.float = kind_other →
     check_narrowing_conversion 7 (Some Fixture.float) from_expr "assignment"
     = []).
Proof.
  apply (check_narrowing_conversion_three_patterns 7 Fixture.float
           (Some (Fixture.var Fixture.int64_t)) "assignment" Fixture.int64_t);
    reflexivity.
Defined.

(** C7.  When the destination type or the origin type of the source is null
    or the error placeholder, the check returns with no diagnostic: the
    function is total, and the outcome is the empty list. *)
Theorem check_narrowing_conversion_indeterminate
    loc to_type from_expr context :
  indeterminate to_type ∨ indeterminate (get_original_type from_expr) →
  check_narrowing_conversion loc to_type from_expr context = [].
Proof.
  unfold indeterminate, check_narrowing_conversion.
  intros [[-> | ->] | [-> | ->]]; try done.
  - by destruct (get_original_type from_expr).
  - by destruct to_type.
  - destruct to_type as [to_type|]; [|done].
    by rewrite orb_true_r.
Qed.

Lemma check_narrowing_conversion_indeterminate_witness :
  check_narrowing_conversion 3 (Some Fixture.int32_t)
    (Some (Fixture.convert Fixture.int32_t
             (Node VAR_DECL (Some error_mark_node) 3 0 [None])))
    "return value" = [].
Proof.
  apply check_narrowing_conversion_indeterminate.
  right. right. reflexivity.
Defined.

(** C10.  The outcome of the check does not depend on which variant of a type
    is handed in: replacing the destination and the origin type by types with
    the same main variant and the same width leaves the classification
    unchanged. *)
Theorem check_narrowing_conversion_variants
    loc loc' context context' to_type to_type' from_expr from_expr'
    from_type from_type' :
  get_original_type from_expr = Some from_type →
  get_original_type from_expr' = Some from_type' →
  variant_of to_type to_type' →
  variant_of from_type from_type' →
  (is_narrowing from_type to_type ↔ is_narrowing from_type' to_type')
  ∧ (check_narrowing_conversion loc (Some to_type) from_expr context = []
     ↔ check_narrowing_conversion loc' (Some to_type') from_expr' context'
       = []).
Proof.
  intros Horigin Horigin' (Hto & Hto' & Hto_main & Hto_width)
    (Hfrom & Hfrom' & Hfrom_main & Hfrom_width).
  assert (is_narrowing from_type to_type ↔ is_narrowing from_type' to_type')
    as Hsame.
  { rewrite !is_narrowing_codes. cbn.
    by rewrite Hto_main, Hto_width, Hfrom_main, Hfrom_width. }
  split; [done|].
  destruct (decide (TYPE_PRECISION from_type = 64%N
                    ∧ TYPE_PRECISION to_type = 32%N
                    ∧ kind_of from_type ≠ kind_other
                    ∧ kind_of to_type ≠ kind_other)) as [Hyes|Hno].
  - assert (is_narrowing from_type to_type) as Hnarrow.
    { apply is_narrowing_codes. cbn.
      destruct Hyes as (? & ? & Hkf & Hkt).
      unfold kind_of in Hkf, Hkt.
      split_and!; try done.
      - destruct (TYPE_CODE (TYPE_MAIN_VARIANT from_type)); auto; done.
      - destruct (TYPE_CODE (TYPE_MAIN_VARIANT to_type)); auto; done. }
    rewrite (check_narrowing_conversion_detects _ _ _ _ _ Horigin Hto Hfrom
               Hnarrow).
    apply Hsame in Hnarrow.
    by rewrite (check_narrowing_conversion_detects _ _ _ _ _ Horigin' Hto'
                  Hfrom' Hnarrow).
  - assert (¬ is_narrowing from_type to_type) as Hnarrow.
    { intros Hnarrow. apply Hno.
      unfold is_narrowing, same_kind_narrowing, wide_integer_to_narrow_float,
        wide_float_to_narrow_integer, bit_width in Hnarrow.
      intuition congruence. }
    rewrite (check_narrowing_conversion_passes _ _ _ _ _ Horigin Hnarrow).
    rewrite Hsame in Hnarrow.
    by rewrite (check_narrowing_conversion_passes _ _ _ _ _ Horigin' Hnarrow).
Qed.

Lemma check_narrowing_conversion_variants_witness :
  (is_narrowing Fixture.int64_t Fixture.int32_t
   ↔ is_narrowing Fixture.long_int Fixture.int)
  ∧ (check_narrowing_conversion 1 (Some Fixture.int32_t)
       (Some (Fixture.var Fixture.int64_t)) "assignment" = []
     ↔ check_narrowing_conversion 2 (Some Fixture.int)
         (Some (Fixture.var Fixture.long_int)) "return value" = []).
Proof.
  apply (check_narrowing_conversion_variants 1 2 "assignment" "return value"
           Fixture.int32_t Fixture.int
           (Some (Fixture.var Fixture.int64_t))
           (Some (Fixture.var Fixture.long_int))
           Fixture.int64_t Fixture.long_int);
    repeat split; reflexivity.
Defined.

Example return_i64_warns :
  diagnostics
    (traverse_and_check_ast 1 (Some Fixture.return_i64)
       (Fixture.data Fixture.int32_t))
  = [warning_at 9 "int64_t" "int32_t" "return value"].
Proof. reflexivity. Qed.

Example assign_i64_warns :
  diagnostics
    (traverse_and_check_ast 1 (Some Fixture.assign_i64)
       (Fixture.data void_type_node))
  = [warning_at 36 "int64_t" "int32_t" "assignment"].
Proof. reflexivity. Qed.

Example widen_i32_is_silent :
  diagnostics
    (traverse_and_check_ast 1 (Some Fixture.widen_i32)
       (Fixture.data void_type_node))
  = [].
Proof. reflexivity. Qed.

Example call_float_i64_warns :
  diagnostics
    (traverse_and_check_ast 1 (Some Fixture.call_float_i64)
       (Fixture.data void_type_node))
  = [warning_at 56 "int64_t" "float" "function argument"].
Proof. reflexivity. Qed.
(** ** The walk, one step at a time *)

Section lists.
Context {A B : Type}.

Lemma concat_map_bind (f : A → list B) (l : list A) :
  concat (map f l) = l ≫= f.
Proof. induction l as [|x l IH]; csimpl; by f_equal. Qed.

Lemma lookup_map_default (f : option A → list B) (l : list (option A)) i :
  f None = [] →
  default [] (map f l !! i) = f (mjoin (l !! i)).
Proof.
  intros Hnone. revert i.
  induction l as [|x l IH]; intros [|i]; cbn; auto.
Qed.

Lemma bind_seq_lookup (f : option A → list B) (l : list (option A)) :
  seq 0 (length l) ≫= (λ i, f (mjoin (l !! i))) = l ≫= f.
Proof.
  induction l as [|x l IH]; [done|].
  cbn [length seq]. rewrite !bind_cons, <-fmap_S_seq. f_equal.
  rewrite <-IH. clear IH.
  induction (seq 0 (length l)) as [|j js IHjs]; csimpl; by f_equal.
Qed.
End lists.

Lemma visited_app trace trace' :
  visited (trace ++ trace') = visited trace ++ visited trace'.
Proof. apply omap_app. Qed.

Lemma diagnostics_app trace trace' :
  diagnostics (trace ++ trace') = diagnostics trace ++ diagnostics trace'.
Proof. apply omap_app. Qed.

Lemma visited_Traversing node trace :
  visited (Traversing node :: trace) = node :: visited trace.
Proof. done. Qed.

Lemma diagnostics_Traversing node trace :
  diagnostics (Traversing node :: trace) = diagnostics trace.
Proof. done. Qed.

Lemma visited_Warning ds : visited (Warning <$> ds) = [].
Proof. by induction ds. Qed.

Lemma diagnostics_Warning ds : diagnostics (Warning <$> ds) = ds.
Proof. induction ds; csimpl; by f_equal. Qed.

Lemma visited_bind {A} (f : A → list event) (l : list A) :
  visited (l ≫= f) = l ≫= λ x, visited (f x).
Proof.
  induction l as [|x l IH]; [done|].
  by rewrite !bind_cons, visited_app, IH.
Qed.

Lemma diagnostics_bind {A} (f : A → list event) (l : list A) :
  diagnostics (l ≫= f) = l ≫= λ x, diagnostics (f x).
Proof.
  induction l as [|x l IH]; [done|].
  by rewrite !bind_cons, diagnostics_app, IH.
Qed.

(** The walk of a node: the entry, the check at the node, then the walks of
    the children the descent table lists, in its order. *)
Lemma traverse_node_unfold input_location data node :
  traverse_node input_location data node
  = Traversing node
      :: (Warning <$> check_current_node input_location node data)
      ++ (descent_slots node
            ≫= λ i, traverse_and_check_ast input_location
                      (TREE_OPERAND node i) data).
Proof.
  destruct node as [code type locus cst slots].
  cbn [traverse_node]. f_equal. f_equal.
  set (walk := λ child : option tree,
         match child with
         | Some child => traverse_node input_location data child
         | None => []
         end).
  assert (∀ i, default [] (map walk slots !! i)
               = traverse_and_check_ast input_location
                   (TREE_OPERAND (Node code type locus cst slots) i) data)
    as Hwalk.
  { intros i. unfold TREE_OPERAND. cbn [operands].
    by rewrite (lookup_map_default walk). }
  assert (concat (map walk slots)
          = seq 0 (length slots)
              ≫= λ i, traverse_and_check_ast input_location
                        (TREE_OPERAND (Node code type locus cst slots) i) data)
    as Hall.
  { rewrite concat_map_bind. unfold TREE_OPERAND. cbn [operands].
    by rewrite (bind_seq_lookup
                  (λ child, traverse_and_check_ast input_location child data)). }
  unfold descent_slots, TREE_OPERAND_LENGTH. cbn [TREE_CODE operands].
  destruct code; cbn [operand_kind]; try case_bool_decide;
    rewrite ?Hwalk, ?Hall; csimpl; rewrite ?app_nil_r; try done.
Qed.

(** The walk of a node as the source spells it. *)
Lemma traverse_and_check_ast_unfold input_location data node :
  traverse_and_check_ast input_location (Some node) data
  = Traversing node
      :: (Warning <$> check_current_node input_location node data)
      ++ descend input_location data node.
Proof.
  cbn [traverse_and_check_ast]. rewrite traverse_node_unfold.
  f_equal. f_equal. unfold descend, descent_slots.
  pose proof (bind_seq_lookup
                (λ child, traverse_and_check_ast input_location child data)
                (operands node)) as Hall.
  fold (TREE_OPERAND_LENGTH node) in Hall.
  change (λ i, traverse_and_check_ast input_location
                 (mjoin (operands node !! i)) data)
    with (λ i, traverse_and_check_ast input_location
                 (TREE_OPERAND node i) data) in Hall.
  destruct (TREE_CODE node); cbn [operand_kind]; try case_bool_decide;
    rewrite ?Hall; csimpl; rewrite ?app_nil_r; done.
Qed.

Lemma traverse_and_check_ast_null input_location data :
  traverse_and_check_ast input_location None data = [].
Proof. done. Qed.

Lemma visited_traverse_node input_location data node :
  visited (traverse_node input_location data node)
  = node
      :: (descent_slots node
            ≫= λ i, visited (traverse_and_check_ast input_location
                               (TREE_OPERAND node i) data)).
Proof.
  rewrite traverse_node_unfold, visited_Traversing.
  by rewrite visited_app, visited_Warning, visited_bind.
Qed.

Lemma diagnostics_traverse_node input_location data node :
  diagnostics (traverse_node input_location data node)
  = check_current_node input_location node data
      ++ (descent_slots node
            ≫= λ i, diagnostics (traverse_and_check_ast input_location
                                   (TREE_OPERAND node i) data)).
Proof.
  rewrite traverse_node_unfold, diagnostics_Traversing.
  by rewrite diagnostics_app, diagnostics_Warning, diagnostics_bind.
Qed.

(** ** The unwrapper *)

Lemma peel_conversions_wrap w e :
  pure_conversion w → peel_conversions (wrap w e) = peel_conversions e.
Proof. unfold pure_conversion, wrap. cbn. by intros ->. Qed.

Lemma peel_conversions_wrap_all ws e :
  Forall pure_conversion ws →
  peel_conversions (wrap_all ws e) = peel_conversions e.
Proof.
  induction 1 as [|w ws Hw _ IH]; [done|].
  change (wrap_all (w :: ws) e) with (wrap w (wrap_all ws e)).
  by rewrite peel_conversions_wrap.
Qed.

Lemma conversion_wrapper_not_init code :
  conversion_wrapper code = true → code ≠ INIT_EXPR.
Proof. by intros Hcode ->. Qed.

(** Below the top-level look at [INIT_EXPR], the origin type is the type of
    the node the peeling loop stops at. *)
Lemma get_original_type_peeled e m :
  TREE_CODE e ≠ INIT_EXPR →
  peel_conversions e = Some m →
  get_original_type (Some e) = TREE_TYPE m.
Proof.
  intros Hcode Hpeel. unfold get_original_type.
  rewrite bool_decide_eq_false_2 by done. cbn. by rewrite Hpeel.
Qed.

(** At the top an initialization is replaced by its value operand. *)
Lemma get_original_type_init e value :
  TREE_CODE e = INIT_EXPR →
  TREE_OPERAND e 1 = Some value →
  get_original_type (Some e)
  = match peel_conversions value with
    | Some m => TREE_TYPE m
    | None => TREE_TYPE e
    end.
Proof.
  intros Hcode Hvalue. unfold get_original_type.
  rewrite bool_decide_eq_true_2 by done. by rewrite Hvalue.
Qed.

Lemma wrap_all_code w ws e :
  pure_conversion w → TREE_CODE (wrap_all (w :: ws) e) ≠ INIT_EXPR.
Proof. intros Hw. by apply conversion_wrapper_not_init. Qed.

(** C4, as amended.  Let [m] be the innermost node under the wrappers of
    [e] that is not a conversion wrapper.  Under [N >= 1] pure conversion
    wrappers the origin type of [e] is the type of [m], whatever [N] is and
    whatever the wrappers are: the same under one wrapper, and the same
    under [N - 1] wrappers as long as at least one wrapper remains or [e]
    is not an initialization. *)
Theorem get_original_type_wrappers ws e m :
  ws ≠ [] →
  Forall pure_conversion ws →
  peel_conversions e = Some m →
  get_original_type (Some (wrap_all ws e)) = TREE_TYPE m
  ∧ (∀ w, pure_conversion w →
          get_original_type (Some (wrap w e)) = TREE_TYPE m)
  ∧ (tail ws ≠ [] ∨ TREE_CODE e ≠ INIT_EXPR →
     get_original_type (Some (wrap_all (tail ws) e)) = TREE_TYPE m).
Proof.
  intros Hne Hpure Hpeel.
  assert (∀ ws', ws' ≠ [] → Forall pure_conversion ws' →
                 get_original_type (Some (wrap_all ws' e)) = TREE_TYPE m)
    as Hlayers.
  { intros [|w ws'] ? Hpure'; [done|].
    apply get_original_type_peeled.
    - apply wrap_all_code. by inversion Hpure'.
    - by rewrite peel_conversions_wrap_all. }
  split_and!.
  - by apply Hlayers.
  - intros w Hw. apply (Hlayers [w]); [done|]. by constructor.
  - destruct ws as [|w ws]; [done|]. cbn [tail].
    inversion_clear Hpure as [|?? _ Htail].
    intros [Hmore | Hcode]; [by apply Hlayers|].
    destruct ws as [|w' ws]; [|by apply Hlayers].
    by apply get_original_type_peeled.
Qed.

Lemma get_original_type_wrappers_witness :
  get_original_type
    (Some (wrap_all [Fixture.to_float; Fixture.to_double]
             (Fixture.var Fixture.int64_t)))
  = Some Fixture.int64_t.
Proof.
  refine (proj1 (get_original_type_wrappers
                   [Fixture.to_float; Fixture.to_double]
                   (Fixture.var Fixture.int64_t)
                   (Fixture.var Fixture.int64_t) _ _ _)).
  - discriminate.
  - repeat constructor.
  - reflexivity.
Defined.

(** C4, as stated, fails for [N = 1] on an initialization: the bare
    [INIT_EXPR] yields the origin type of its value operand, the wrapped one
    the type of the [INIT_EXPR] itself, although the innermost node that is
    not a wrapper is the same [INIT_EXPR] in both. *)
Lemma get_original_type_wrapped_init_differs :
  pure_conversion Fixture.to_int32
  ∧ peel_conversions (wrap_all [Fixture.to_int32] Fixture.init_retval)
    = Some Fixture.init_retval
  ∧ peel_conversions (wrap_all [] Fixture.init_retval)
    = Some Fixture.init_retval
  ∧ get_original_type
      (Some (wrap_all [Fixture.to_int32] Fixture.init_retval))
    = Some Fixture.int32_t
  ∧ get_original_type (Some (wrap_all [] Fixture.init_retval))
    = Some Fixture.int64_t
  ∧ get_original_type
      (Some (wrap_all [Fixture.to_int32] Fixture.init_retval))
    ≠ get_original_type (Some (wrap_all [] Fixture.init_retval)).
Proof. split_and!; try reflexivity. discriminate. Qed.

(** ** Call arguments *)

Lemma check_call_args_paired loc arg_types args :
  check_call_args loc arg_types args = paired_checks loc arg_types args.
Proof.
  unfold paired_checks. revert arg_types.
  induction args as [|arg args IH]; intros [|param_type chain]; cbn;
    try done.
  - by destruct (is_void_type_node param_type).
  - destruct (is_void_type_node param_type); [done|].
    cbn. rewrite IH. f_equal.
    by destruct param_type as [param_type|].
Qed.

(** The check made at a call whose callee resolves to [fn_decl]. *)
Lemma check_current_node_call input_location node data fn_decl :
  TREE_CODE node = CALL_EXPR →
  get_fndecl_from_callee_expr (CALL_EXPR_FN node) = Some fn_decl →
  check_current_node input_location node data
  = check_call_args (location_of input_location node)
      (from_option TYPE_ARG_TYPES [] (TREE_TYPE fn_decl))
      (CALL_EXPR_ARGS node).
Proof.
  intros Hcode Hfn. unfold check_current_node. by rewrite Hcode, Hfn.
Qed.

(** C5.  At a call whose callee resolves, the declared parameter types and
    the supplied arguments are checked pairwise and in order, each pair on
    its own, up to the end of the shorter list or the marker that ends the
    fixed parameters; when no more arguments are supplied than parameters
    are declared, the arguments checked are exactly the supplied ones. *)
Theorem call_arguments_checked_pairwise
    input_location node data fn_decl fntype :
  TREE_CODE node = CALL_EXPR →
  get_fndecl_from_callee_expr (CALL_EXPR_FN node) = Some fn_decl →
  TREE_TYPE fn_decl = Some fntype →
  let parameters := fixed_parameters (TYPE_ARG_TYPES fntype) in
  let args := CALL_EXPR_ARGS node in
  check_current_node input_location node data
  = zip parameters args
      ≫= (λ pair,
            check_narrowing_conversion (location_of input_location node)
              pair.1 (Some pair.2) "function argument")
  ∧ length (zip parameters args) = length parameters `min` length args
  ∧ ((length args ≤ length parameters)%nat → (zip parameters args).*2 = args).
Proof.
  intros Hcode Hfn Htype parameters args. split_and!.
  - rewrite (check_current_node_call _ _ _ _ Hcode Hfn), Htype.
    apply check_call_args_paired.
  - apply length_zip.
  - apply snd_zip.
Qed.

Lemma call_arguments_checked_pairwise_witness :
  check_current_node 1 Fixture.call_one_of_two (Fixture.data void_type_node)
  = [warning_at 80 "int64_t" "int32_t" "function argument"].
Proof.
  refine (eq_trans
            (proj1 (call_arguments_checked_pairwise 1 Fixture.call_one_of_two
                      (Fixture.data void_type_node) Fixture.two_parameters
                      (mk_type FUNCTION_TYPE 8 None None
                         [Some Fixture.int32_t; Some Fixture.float;
                          Some void_type_node]) _ _ _)) _);
    reflexivity.
Defined.

(** ** Unresolved callees *)

Lemma descent_slots_call node :
  TREE_CODE node = CALL_EXPR →
  descent_slots node = seq 0 (TREE_OPERAND_LENGTH node).
Proof. unfold descent_slots. by intros ->. Qed.

Lemma diagnostics_all_operands input_location data node :
  descent_slots node = seq 0 (TREE_OPERAND_LENGTH node) →
  diagnostics (traverse_node input_location data node)
  = check_current_node input_location node data
      ++ (operands node
            ≫= λ child,
                 diagnostics (traverse_and_check_ast input_location child data)).
Proof.
  intros Hslots. rewrite diagnostics_traverse_node, Hslots. f_equal.
  unfold TREE_OPERAND, TREE_OPERAND_LENGTH.
  apply (bind_seq_lookup
           (λ child,
              diagnostics (traverse_and_check_ast input_location child data))).
Qed.

(** C6, as amended.  At a call whose callee does not unwrap to a function
    declaration the argument check is skipped: the call node itself reports
    nothing, whatever its arguments and their types.  The walk still
    descends into the operands of the call, so the walk of the call reports
    exactly what the walks of its operands report, and nothing at all when
    the operands hold no checkpoint of their own. *)
Theorem unresolved_callee_reports_nothing input_location node data :
  TREE_CODE node = CALL_EXPR →
  get_fndecl_from_callee_expr (CALL_EXPR_FN node) = None →
  check_current_node input_location node data = []
  ∧ diagnostics (traverse_and_check_ast input_location (Some node) data)
    = operands node
        ≫= (λ child,
              diagnostics (traverse_and_check_ast input_location child data))
  ∧ (Forall (λ child,
               diagnostics (traverse_and_check_ast input_location child data)
               = []) (operands node) →
     diagnostics (traverse_and_check_ast input_location (Some node) data) = []).
Proof.
  intros Hcode Hfn.
  assert (check_current_node input_location node data = []) as Hcheck.
  { unfold check_current_node. by rewrite Hcode, Hfn. }
  assert (diagnostics (traverse_and_check_ast input_location (Some node) data)
          = operands node
              ≫= (λ child,
                    diagnostics
                      (traverse_and_check_ast input_location child data)))
    as Hwalk.
  { cbn [traverse_and_check_ast].
    rewrite diagnostics_all_operands by by apply descent_slots_call.
    by rewrite Hcheck. }
  split; [done|split; [done|]].
  rewrite Hwalk. clear Hwalk.
  induction 1 as [|child rest Hchild _ IH]; [done|].
  by rewrite bind_cons, Hchild, IH.
Qed.

Lemma unresolved_callee_reports_nothing_witness :
  diagnostics
    (traverse_and_check_ast 1 (Some Fixture.call_through_pointer)
       (Fixture.data void_type_node)) = [].
Proof.
  refine (proj2 (proj2 (unresolved_callee_reports_nothing 1
                          Fixture.call_through_pointer
                          (Fixture.data void_type_node) _ _)) _).
  - reflexivity.
  - reflexivity.
  - repeat constructor.
Defined.

(** C6, as stated, fails: the walk of a call through a pointer reports the
    assignment that is its argument, although the callee is unresolved and
    the check at the call node reports nothing. *)
Lemma unresolved_callee_walk_reports :
  TREE_CODE Fixture.call_through_pointer_nested = CALL_EXPR
  ∧ get_fndecl_from_callee_expr
      (CALL_EXPR_FN Fixture.call_through_pointer_nested) = None
  ∧ check_current_node 1 Fixture.call_through_pointer_nested
      (Fixture.data void_type_node) = []
  ∧ diagnostics
      (traverse_and_check_ast 1 (Some Fixture.call_through_pointer_nested)
         (Fixture.data void_type_node))
    = [warning_at 36 "int64_t" "int32_t" "assignment"]
  ∧ diagnostics
      (traverse_and_check_ast 1 (Some Fixture.call_through_pointer_nested)
         (Fixture.data void_type_node)) ≠ [].
Proof. split_and!; try reflexivity. discriminate. Qed.

(** ** Returns *)

Lemma check_current_node_return input_location node data :
  TREE_CODE node = RETURN_EXPR →
  check_current_node input_location node data
  = check_narrowing_conversion (location_of input_location node)
      (function_return_type data) (TREE_OPERAND node 0) "return value".
Proof.
  intros Hcode. unfold check_current_node. rewrite Hcode.
  destruct (TREE_OPERAND node 0); [done|].
  unfold check_narrowing_conversion. cbn.
  by destruct (function_return_type data).
Qed.

Lemma descent_slots_return node :
  TREE_CODE node = RETURN_EXPR → descent_slots node = [].
Proof. unfold descent_slots. by intros ->. Qed.

(** C9.  A return node is a leaf of the walk: the walk enters it, makes the
    one check of the returned value against the function's return type, and
    ends there.  No node below the return is entered, so a checkpoint inside
    the returned expression is never evaluated. *)
Theorem return_is_a_traversal_leaf input_location node data :
  TREE_CODE node = RETURN_EXPR →
  let trace := traverse_and_check_ast input_location (Some node) data in
  trace
  = Traversing node
      :: (Warning
            <$> check_narrowing_conversion (location_of input_location node)
                  (function_return_type data) (TREE_OPERAND node 0)
                  "return value")
  ∧ visited trace = [node]
  ∧ ∀ entered, entered ∈ visited trace → entered = node.
Proof.
  intros Hcode trace.
  assert (trace
          = Traversing node
              :: (Warning
                    <$> check_narrowing_conversion
                          (location_of input_location node)
                          (function_return_type data) (TREE_OPERAND node 0)
                          "return value")) as Htrace.
  { unfold trace. cbn [traverse_and_check_ast].
    rewrite traverse_node_unfold, descent_slots_return by done.
    by rewrite check_current_node_return, app_nil_r. }
  assert (visited trace = [node]) as Hvisited.
  { by rewrite Htrace, visited_Traversing, visited_Warning. }
  split; [done|split; [done|]].
  intros entered. rewrite Hvisited. by intros ->%list_elem_of_singleton.
Qed.

Lemma return_is_a_traversal_leaf_witness :
  visited
    (traverse_and_check_ast 1 (Some Fixture.return_nested_call)
       (Fixture.data Fixture.int32_t))
  = [Fixture.return_nested_call].
Proof.
  refine (proj1 (proj2 (return_is_a_traversal_leaf 1
                          Fixture.return_nested_call
                          (Fixture.data Fixture.int32_t) _))).
  reflexivity.
Defined.

(** The call inside the returned value warns when walked on its own and is
    passed over when walked as part of the return. *)
Example nested_call_not_checked :
  diagnostics
    (traverse_and_check_ast 1 (Some Fixture.call_float_i64)
       (Fixture.data Fixture.int32_t))
  = [warning_at 56 "int64_t" "float" "function argument"]
  ∧ diagnostics
      (traverse_and_check_ast 1 (Some Fixture.return_nested_call)
         (Fixture.data Fixture.int32_t))
    = [].
Proof. split; reflexivity. Qed.

(** ** The four checkpoints *)

Lemma widening_is_not_narrowing from to :
  (bit_width from ≤ bit_width to)%N → ¬ is_narrowing from to.
Proof.
  unfold is_narrowing, same_kind_narrowing, wide_integer_to_narrow_float,
    wide_float_to_narrow_integer.
  intros Hwidth Hnarrow.
  assert (bit_width from = 64%N ∧ bit_width to = 32%N) as [Hf Ht]
    by intuition.
  rewrite Hf, Ht in Hwidth. lia.
Qed.

Lemma is_narrowing_not_void from to :
  is_narrowing from to → is_void_type_node (Some to) = false.
Proof.
  intros Hnarrow%is_narrowing_codes. cbn in Hnarrow.
  destruct to; try done.
  destruct Hnarrow as (_ & [?|?] & _); done.
Qed.

Lemma quiet_leaf input_location data code type locus cst :
  code ≠ VAR_DECL → code ≠ MODIFY_EXPR → code ≠ CALL_EXPR →
  code ≠ RETURN_EXPR →
  quiet input_location data (Node code type locus cst []).
Proof.
  intros. unfold quiet. cbn [traverse_and_check_ast].
  rewrite diagnostics_traverse_node.
  assert (descent_slots (Node code type locus cst []) ≫=
            (λ i, diagnostics
                    (traverse_and_check_ast input_location
                       (TREE_OPERAND (Node code type locus cst []) i) data))
          = []) as ->.
  { induction (descent_slots _) as [|i slots IH]; [done|].
    rewrite bind_cons, IH. by destruct i. }
  rewrite app_nil_r. unfold check_current_node. cbn [TREE_CODE].
  by destruct code.
Qed.

#[local] Arguments check_narrowing_conversion : simpl never.
#[local] Arguments traverse_node : simpl never.

Lemma diagnostics_initialization input_location data type locus cst source :
  diagnostics
    (traverse_and_check_ast input_location
       (Some (Node VAR_DECL type locus cst [Some source])) data)
  = check_narrowing_conversion locus type (Some source)
      "variable initialization"
    ++ diagnostics (traverse_and_check_ast input_location (Some source) data).
Proof.
  cbn [traverse_and_check_ast]. rewrite diagnostics_traverse_node.
  cbn. by rewrite app_nil_r.
Qed.

Lemma diagnostics_assignment input_location data type locus cst lhs source :
  let node := Node MODIFY_EXPR type locus cst [Some lhs; Some source] in
  diagnostics (traverse_and_check_ast input_location (Some node) data)
  = check_narrowing_conversion (location_of input_location node)
      (TREE_TYPE lhs) (Some source) "assignment"
    ++ diagnostics (traverse_and_check_ast input_location (Some lhs) data)
    ++ diagnostics (traverse_and_check_ast input_location (Some source) data).
Proof.
  intros node. cbn [traverse_and_check_ast].
  rewrite diagnostics_traverse_node. cbn. by rewrite app_nil_r.
Qed.

Lemma diagnostics_return input_location data type locus cst source :
  let node := Node RETURN_EXPR type locus cst [Some source] in
  diagnostics (traverse_and_check_ast input_location (Some node) data)
  = check_narrowing_conversion (location_of input_location node)
      (function_return_type data) (Some source) "return value".
Proof.
  intros node. cbn [traverse_and_check_ast].
  rewrite diagnostics_traverse_node. cbn. by rewrite app_nil_r.
Qed.

Lemma diagnostics_direct_call input_location data to_type locus source :
  let node := direct_call (prototype [to_type]) locus [source] in
  diagnostics (traverse_and_check_ast input_location (Some node) data)
  = (if is_void_type_node (Some to_type) then []
     else check_narrowing_conversion (location_of input_location node)
            (Some to_type) (Some source) "function argument")
    ++ diagnostics (traverse_and_check_ast input_location (Some source) data).
Proof.
  intros node. cbn [traverse_and_check_ast].
  rewrite diagnostics_traverse_node.
  rewrite (check_current_node_call _ _ _
             (Node FUNCTION_DECL (Some (prototype [to_type])) 0 0 [None]))
    by done.
  assert (∀ cst, diagnostics
                   (traverse_node input_location data
                      (Node INTEGER_CST None 0 cst [])) = []) as Hcount
    by done.
  assert (∀ fntype,
            diagnostics
              (traverse_node input_location data
                 (Node ADDR_EXPR None locus 0
                    [Some (Node FUNCTION_DECL fntype 0 0 [None])])) = [])
    as Hcallee by done.
  cbn -[is_void_type_node]. fold diagnostics.
  rewrite Hcount, Hcallee, !app_nil_r.
  by destruct (is_void_type_node (Some to_type)).
Qed.

(** The four checkpoints on a source expression known by the plugin's own
    origin type and silence. *)
Lemma checkpoint_reports
    input_location data from_type to_type source lhs
    decl_locus locus cst type :
  get_original_type (Some source) = Some from_type →
  is_error_mark_node from_type = false →
  is_error_mark_node to_type = false →
  quiet input_location data source →
  quiet input_location data lhs →
  TREE_TYPE lhs = Some to_type →
  function_return_type data = Some to_type →
  let walk node :=
    diagnostics (traverse_and_check_ast input_location (Some node) data) in
  let report node context :=
    [warning_at (location_of input_location node)
       (get_type_name (Some from_type)) (get_type_name (Some to_type))
       context] in
  let initialization :=
    Node VAR_DECL (Some to_type) decl_locus cst [Some source] in
  let assignment := Node MODIFY_EXPR type locus cst [Some lhs; Some source] in
  let call := direct_call (prototype [to_type]) locus [source] in
  let return_ := Node RETURN_EXPR type locus cst [Some source] in
  (is_narrowing from_type to_type →
   walk initialization
   = [warning_at decl_locus (get_type_name (Some from_type))
        (get_type_name (Some to_type)) "variable initialization"]
   ∧ walk assignment = report assignment "assignment"
   ∧ walk call = report call "function argument"
   ∧ walk return_ = report return_ "return value")
  ∧ ((bit_width from_type ≤ bit_width to_type)%N →
     walk initialization = [] ∧ walk assignment = [] ∧ walk call = []
     ∧ walk return_ = []).
Proof.
  intros Horigin Hfrom Hto Hsource Hlhs Hlhs_type Hreturn.
  unfold quiet in Hsource, Hlhs. cbv beta zeta.
  rewrite diagnostics_initialization, diagnostics_assignment,
    diagnostics_return, diagnostics_direct_call.
  rewrite Hsource, Hlhs, Hlhs_type, Hreturn, !app_nil_r.
  split.
  - intros Hnarrow.
    rewrite (is_narrowing_not_void _ _ Hnarrow).
    by rewrite !(check_narrowing_conversion_detects _ _ _ _ _ Horigin Hto
                   Hfrom Hnarrow).
  - intros Hnarrow%widening_is_not_narrowing.
    rewrite !(check_narrowing_conversion_passes _ _ _ _ _ Horigin Hnarrow).
    by destruct (is_void_type_node (Some to_type)).
Qed.

(** A node without children: every operand slot is null. *)
Lemma TREE_OPERAND_childless node i :
  Forall (λ child, child = None) (operands node) → TREE_OPERAND node i = None.
Proof.
  unfold TREE_OPERAND. intros Hnull.
  destruct (operands node !! i) as [child|] eqn:Hchild; [|done].
  rewrite Forall_forall in Hnull. cbn.
  apply Hnull. by eapply list_elem_of_lookup_2.
Qed.

(** The walk of a node without children reports nothing, whatever its
    code: a check finds no initializer, no right-hand side, no callee and no
    returned value. *)
Lemma quiet_childless input_location data node :
  Forall (λ child, child = None) (operands node) →
  quiet input_location data node.
Proof.
  intros Hnull. unfold quiet. cbn [traverse_and_check_ast].
  rewrite diagnostics_traverse_node.
  assert (descent_slots node ≫=
            (λ i, diagnostics
                    (traverse_and_check_ast input_location
                       (TREE_OPERAND node i) data))
          = []) as ->.
  { induction (descent_slots node) as [|i slots IH]; [done|].
    by rewrite bind_cons, IH, TREE_OPERAND_childless. }
  rewrite app_nil_r. unfold check_current_node, DECL_INITIAL, CALL_EXPR_FN.
  rewrite !TREE_OPERAND_childless by done.
  by destruct (TREE_CODE node).
Qed.

(** A conversion wrapper reports nothing itself. *)
Lemma diagnostics_wrap input_location data w e :
  pure_conversion w →
  diagnostics (traverse_and_check_ast input_location (Some (wrap w e)) data)
  = diagnostics (traverse_and_check_ast input_location (Some e) data).
Proof.
  unfold pure_conversion, wrap. intros Hw. cbn [traverse_and_check_ast].
  rewrite diagnostics_all_operands.
  - unfold check_current_node. cbn [TREE_CODE operands].
    rewrite bind_singleton.
    by destruct (wrapper_code w).
  - unfold descent_slots. cbn [TREE_CODE].
    by destruct (wrapper_code w).
Qed.

Lemma quiet_wrap_all input_location data ws e :
  Forall pure_conversion ws →
  quiet input_location data e →
  quiet input_location data (wrap_all ws e).
Proof.
  intros Hpure He. unfold quiet in *.
  induction Hpure as [|w ws Hw _ IH]; [done|].
  change (wrap_all (w :: ws) e) with (wrap w (wrap_all ws e)).
  by rewrite diagnostics_wrap.
Qed.

(** The origin type of a node under conversion wrappers, read off the
    tree. *)
Lemma get_original_type_wrap_all ws core :
  Forall pure_conversion ws →
  conversion_wrapper (TREE_CODE core) = false →
  TREE_CODE core ≠ INIT_EXPR →
  get_original_type (Some (wrap_all ws core)) = TREE_TYPE core.
Proof.
  intros Hpure Hcore Hinit.
  assert (peel_conversions core = Some core) as Hpeel.
  { destruct core as [code type locus cst slots]. cbn in *.
    by rewrite Hcore. }
  apply get_original_type_peeled.
  - destruct Hpure as [|w ws Hw _]; [done|]. by apply wrap_all_code.
  - by rewrite peel_conversions_wrap_all.
Qed.

(** C3.  Take a node [core] of type [from_type] without children (a
    variable, a parameter, a literal), under any number of conversion
    wrappers, and put it at each of the four checkpoints with destination
    type [to_type]: as the initializer of a variable, the right side of an
    assignment, the argument of a direct call and the value of a return,
    bare or as the front end wraps it in an [INIT_EXPR].  When the pair is a
    narrowing (64-bit origin, 32-bit destination, in one of the three
    patterns) each walk reports exactly one diagnostic, with the label of its
    checkpoint; when the destination is at least as wide as the origin each
    walk reports none. *)
Theorem checkpoint_coverage
    input_location data from_type to_type ws core lhs result
    decl_locus locus cst type :
  Forall pure_conversion ws →
  conversion_wrapper (TREE_CODE core) = false →
  TREE_CODE core ≠ INIT_EXPR →
  Forall (λ child, child = None) (operands core) →
  TREE_TYPE core = Some from_type →
  Forall (λ child, child = None) (operands lhs) →
  TREE_TYPE lhs = Some to_type →
  function_return_type data = Some to_type →
  is_error_mark_node from_type = false →
  is_error_mark_node to_type = false →
  let source := wrap_all ws core in
  let walk node :=
    diagnostics (traverse_and_check_ast input_location (Some node) data) in
  let report node context :=
    [warning_at (location_of input_location node)
       (get_type_name (Some from_type)) (get_type_name (Some to_type))
       context] in
  let initialization :=
    Node VAR_DECL (Some to_type) decl_locus cst [Some source] in
  let assignment := Node MODIFY_EXPR type locus cst [Some lhs; Some source] in
  let call := direct_call (prototype [to_type]) locus [source] in
  let return_ := Node RETURN_EXPR type locus cst [Some source] in
  let return_init :=
    Node RETURN_EXPR type locus cst
      [Some (Node INIT_EXPR type locus cst [Some result; Some source])] in
  (is_narrowing from_type to_type →
   walk initialization
   = [warning_at decl_locus (get_type_name (Some from_type))
        (get_type_name (Some to_type)) "variable initialization"]
   ∧ walk assignment = report assignment "assignment"
   ∧ walk call = report call "function argument"
   ∧ walk return_ = report return_ "return value"
   ∧ walk return_init = report return_init "return value")
  ∧ ((bit_width from_type ≤ bit_width to_type)%N →
     walk initialization = [] ∧ walk assignment = [] ∧ walk call = []
     ∧ walk return_ = [] ∧ walk return_init = []).
Proof.
  intros Hpure Hcore Hinit Hleaf Hcore_type Hlhs Hlhs_type Hreturn Hfrom Hto
    source walk report initialization assignment call return_ return_init.
  assert (get_original_type (Some source) = Some from_type) as Horigin.
  { unfold source. by rewrite get_original_type_wrap_all. }
  assert (get_original_type
            (Some (Node INIT_EXPR type locus cst [Some result; Some source]))
          = Some from_type) as Horigin_init.
  { rewrite (get_original_type_init _ source) by done.
    unfold source. rewrite peel_conversions_wrap_all by done.
    destruct core as [code ? ? ? ?]. cbn in *. by rewrite Hcore. }
  assert (quiet input_location data source) as Hsource.
  { apply quiet_wrap_all; [done|]. by apply quiet_childless. }
  pose proof (quiet_childless input_location data lhs Hlhs) as Hlhs_quiet.
  destruct (checkpoint_reports input_location data from_type to_type source
              lhs decl_locus locus cst type Horigin Hfrom Hto Hsource
              Hlhs_quiet Hlhs_type Hreturn) as [Hyes Hno].
  assert (walk return_init
          = check_narrowing_conversion
              (location_of input_location return_init) (Some to_type)
              (Some (Node INIT_EXPR type locus cst
                       [Some result; Some source])) "return value")
    as Hreturn_init.
  { unfold walk, return_init. by rewrite diagnostics_return, Hreturn. }
  split.
  - intros Hnarrow. destruct (Hyes Hnarrow) as (? & ? & ? & ?).
    split_and!; try done.
    rewrite Hreturn_init.
    by apply check_narrowing_conversion_detects.
  - intros Hwide. destruct (Hno Hwide) as (? & ? & ? & ?).
    split_and!; try done.
    rewrite Hreturn_init.
    eapply check_narrowing_conversion_passes; [done|].
    by apply widening_is_not_narrowing.
Qed.

Lemma checkpoint_coverage_witness :
  diagnostics
    (traverse_and_check_ast 1
       (Some (Node VAR_DECL (Some Fixture.float) 79 0
                [Some (wrap_all [Fixture.to_float]
                         (Fixture.var Fixture.int64_t))]))
       (Fixture.data Fixture.float))
  = [warning_at 79 "int64_t" "float" "variable initialization"].
Proof.
  refine (proj1 (proj1 (checkpoint_coverage 1 (Fixture.data Fixture.float)
                          Fixture.int64_t Fixture.float [Fixture.to_float]
                          (Fixture.var Fixture.int64_t)
                          (Fixture.var Fixture.float)
                          (Fixture.var Fixture.float) 79 80 0
                          (Some Fixture.float) _ _ _ _ _ _ _ _ _ _) _)).
  - repeat constructor.
  - reflexivity.
  - discriminate.
  - repeat constructor.
  - reflexivity.
  - repeat constructor.
  - reflexivity.
  - reflexivity.
  - reflexivity.
  - reflexivity.
  - right. left. repeat split.
Defined.

(** ** Literal values *)

Lemma TREE_CODE_erase node : TREE_CODE (erase_literals node) = TREE_CODE node.
Proof. by destruct node. Qed.

Lemma TREE_TYPE_erase node : TREE_TYPE (erase_literals node) = TREE_TYPE node.
Proof. by destruct node. Qed.

Lemma operands_erase node :
  operands (erase_literals node)
  = fmap (M:=option) erase_literals <$> operands node.
Proof.
  destruct node as [code type locus cst slots]. cbn.
  induction slots as [|[child|] slots IH]; csimpl; by f_equal.
Qed.

Lemma TREE_OPERAND_erase node i :
  TREE_OPERAND (erase_literals node) i = erase_literals <$> TREE_OPERAND node i.
Proof.
  unfold TREE_OPERAND. rewrite operands_erase, list_lookup_fmap.
  by destruct (operands node !! i) as [[child|]|].
Qed.

Lemma location_of_erase input_location node :
  location_of input_location (erase_literals node)
  = location_of input_location node.
Proof. by destruct node. Qed.

Lemma DECL_SOURCE_LOCATION_erase node :
  DECL_SOURCE_LOCATION (erase_literals node) = DECL_SOURCE_LOCATION node.
Proof. by destruct node. Qed.

Lemma peel_conversions_erase node :
  peel_conversions (erase_literals node)
  = erase_literals <$> peel_conversions node.
Proof.
  induction node as [code type locus cst slots IH] using tree_ind.
  cbn. destruct (conversion_wrapper code); [|done].
  destruct slots as [|[child|] slots]; try done.
  inversion_clear IH as [|?? Hchild _]. by apply Hchild.
Qed.

Lemma get_original_type_erase expr :
  get_original_type (erase_literals <$> expr) = get_original_type expr.
Proof.
  destruct expr as [expr|]; [|done]. cbn [fmap option_fmap option_map].
  unfold get_original_type.
  rewrite TREE_CODE_erase, TREE_OPERAND_erase, TREE_TYPE_erase.
  case_bool_decide.
  - destruct (TREE_OPERAND expr 1) as [value|]; [|done]. cbn.
    rewrite peel_conversions_erase.
    destruct (peel_conversions value); [|done]. cbn.
    apply TREE_TYPE_erase.
  - cbn. rewrite peel_conversions_erase.
    destruct (peel_conversions expr); [|done]. cbn.
    apply TREE_TYPE_erase.
Qed.

Lemma check_narrowing_conversion_erase loc to_type from_expr context :
  check_narrowing_conversion loc to_type (erase_literals <$> from_expr) context
  = check_narrowing_conversion loc to_type from_expr context.
Proof.
  unfold check_narrowing_conversion. by rewrite get_original_type_erase.
Qed.

Lemma peel_callee_erase callee :
  peel_callee (erase_literals callee) = erase_literals <$> peel_callee callee.
Proof.
  induction callee as [code type locus cst slots IH] using tree_ind.
  cbn. destruct code; try done;
    (destruct slots as [|[child|] slots]; try done;
     inversion_clear IH as [|?? Hchild _]; by apply Hchild).
Qed.

Lemma get_fndecl_from_callee_expr_erase callee :
  get_fndecl_from_callee_expr (erase_literals <$> callee)
  = erase_literals <$> get_fndecl_from_callee_expr callee.
Proof.
  destruct callee as [callee|]; [|done]. apply peel_callee_erase.
Qed.

Lemma call_expr_args_erase slots :
  call_expr_args (fmap (M:=option) erase_literals <$> slots)
  = erase_literals <$> call_expr_args slots.
Proof. induction slots as [|[arg|] slots IH]; csimpl; by f_equal. Qed.

Lemma check_call_args_erase loc arg_types args :
  check_call_args loc arg_types (erase_literals <$> args)
  = check_call_args loc arg_types args.
Proof.
  revert arg_types.
  induction args as [|arg args IH]; intros [|param_type chain]; csimpl;
    try done.
  destruct (is_void_type_node param_type); [done|].
  rewrite IH. f_equal.
  destruct param_type as [param_type|]; [|done].
  apply (check_narrowing_conversion_erase _ _ (Some arg)).
Qed.

Lemma check_current_node_erase input_location node data :
  check_current_node input_location (erase_literals node) data
  = check_current_node input_location node data.
Proof.
  unfold check_current_node.
  fold (location_of input_location (erase_literals node)).
  fold (location_of input_location node).
  rewrite location_of_erase, TREE_CODE_erase.
  destruct (TREE_CODE node); try done.
  - unfold DECL_INITIAL.
    rewrite TREE_OPERAND_erase, TREE_TYPE_erase, DECL_SOURCE_LOCATION_erase.
    destruct (TREE_OPERAND node 0) as [initializer|]; [|done].
    apply (check_narrowing_conversion_erase _ _ (Some initializer)).
  - rewrite !TREE_OPERAND_erase, check_narrowing_conversion_erase.
    destruct (TREE_OPERAND node 0) as [lhs|]; [|done]. cbn.
    by rewrite TREE_TYPE_erase.
  - unfold CALL_EXPR_FN, CALL_EXPR_ARGS.
    rewrite TREE_OPERAND_erase, get_fndecl_from_callee_expr_erase,
      operands_erase, <-fmap_drop, call_expr_args_erase.
    destruct (get_fndecl_from_callee_expr _) as [fn_decl|]; [|done]. cbn.
    by rewrite TREE_TYPE_erase, check_call_args_erase.
  - rewrite !TREE_OPERAND_erase.
    destruct (TREE_OPERAND node 0) as [retval|]; [|done].
    apply (check_narrowing_conversion_erase _ _ (Some retval)).
Qed.

Lemma descent_slots_erase node :
  descent_slots (erase_literals node) = descent_slots node.
Proof.
  unfold descent_slots, TREE_OPERAND_LENGTH.
  by rewrite TREE_CODE_erase, operands_erase, length_fmap.
Qed.

Lemma TREE_OPERAND_child node i child :
  TREE_OPERAND node i = Some child → Some child ∈ operands node.
Proof.
  unfold TREE_OPERAND. intros Hchild.
  destruct (operands node !! i) as [slot|] eqn:Hslot; [|done].
  cbn in Hchild. subst slot. by eapply list_elem_of_lookup_2.
Qed.

Lemma diagnostics_erase input_location data node :
  diagnostics (traverse_node input_location data (erase_literals node))
  = diagnostics (traverse_node input_location data node).
Proof.
  induction node as [code type locus cst slots IH] using tree_ind.
  rewrite !diagnostics_traverse_node, check_current_node_erase,
    descent_slots_erase.
  f_equal. apply list_bind_ext; [|done]. intros i.
  rewrite TREE_OPERAND_erase.
  destruct (TREE_OPERAND _ i) as [child|] eqn:Hchild; [|done].
  cbn. rewrite Forall_forall in IH.
  apply (IH (Some child)); [|done].
  by apply TREE_OPERAND_child in Hchild.
Qed.

(** C8.  Two bodies that differ in the values of literals only, with every
    code, type, location and shape the same, yield the same diagnostics:
    the walk never reads a value. *)
Theorem diagnostics_value_independent input_location data body body' :
  erase_literals body = erase_literals body' →
  diagnostics (traverse_and_check_ast input_location (Some body) data)
  = diagnostics (traverse_and_check_ast input_location (Some body') data).
Proof.
  intros Hsame. cbn [traverse_and_check_ast].
  by rewrite <-(diagnostics_erase _ _ body), Hsame, diagnostics_erase.
Qed.

Lemma diagnostics_value_independent_witness :
  diagnostics
    (traverse_and_check_ast 1
       (Some (Fixture.int_to_float_body 9007199254740992))
       (Fixture.data void_type_node))
  = diagnostics
      (traverse_and_check_ast 1 (Some (Fixture.int_to_float_body 1))
         (Fixture.data void_type_node)).
Proof.
  apply (diagnostics_value_independent 1 (Fixture.data void_type_node)
           (Fixture.int_to_float_body 9007199254740992)
           (Fixture.int_to_float_body 1)).
  reflexivity.
Defined.

Example int_to_float_body_warns value :
  diagnostics
    (traverse_and_check_ast 1 (Some (Fixture.int_to_float_body value))
       (Fixture.data void_type_node))
  = [warning_at 79 "int64_t" "float" "variable initialization"].
Proof. reflexivity. Qed.

(** ** Which nodes the walk enters *)

Section selection.
Context {B : Type} (g : nat → list B) (n : nat).
Hypothesis out_of_range : ∀ i, n ≤ i → g i = [].

Lemma bind_out_of_range (idx : list nat) :
  Forall (λ i, ¬ i < n) idx → idx ≫= g = [].
Proof.
  induction 1 as [|i idx Hi _ IH]; [done|].
  rewrite bind_cons, IH, out_of_range by lia. done.
Qed.

(** The slots split into the listed ones and the others. *)
Lemma bind_select (idx : list nat) :
  NoDup idx →
  seq 0 n ≫= g
  ≡ₚ (idx ≫= g) ++ (filter (λ i, i ∉ idx) (seq 0 n) ≫= g).
Proof.
  intros Hnodup.
  rewrite <-(filter_app_complement (λ i, i ∈ idx) (seq 0 n)) at 1.
  rewrite bind_app. f_equiv.
  transitivity
    ((filter (λ i, i < n) idx ++ filter (λ i, ¬ i < n) idx) ≫= g);
    [|by rewrite filter_app_complement].
  rewrite bind_app, (bind_out_of_range (filter (λ i, ¬ i < n) idx)).
  - rewrite (right_id_L [] (++)). f_equiv. apply NoDup_Permutation.
    + apply NoDup_filter, NoDup_seq.
    + by apply NoDup_filter.
    + intros i. rewrite !list_elem_of_filter, elem_of_seq. intuition lia.
  - apply Forall_forall. by intros i [? _]%list_elem_of_filter.
Qed.
End selection.

Lemma NoDup_descent_slots node : NoDup (descent_slots node).
Proof.
  unfold descent_slots.
  destruct (TREE_CODE node); cbn [operand_kind]; try case_bool_decide;
    first [apply NoDup_seq | compute_done].
Qed.

Section closure.
Context {B : Type} (f : option tree → list B).
Hypothesis f_null : f None = [].

Lemma TREE_OPERAND_out_of_range node i :
  TREE_OPERAND_LENGTH node ≤ i → TREE_OPERAND node i = None.
Proof.
  unfold TREE_OPERAND, TREE_OPERAND_LENGTH. intros Hi.
  by rewrite lookup_ge_None_2.
Qed.

(** Every child against the children the table lists. *)
Lemma operands_split node :
  operands node ≫= f
  ≡ₚ (descent_slots node ≫= λ i, f (TREE_OPERAND node i))
     ++ (unlisted_slots node ≫= λ i, f (TREE_OPERAND node i)).
Proof.
  rewrite <-(bind_seq_lookup f (operands node)).
  apply (bind_select (λ i, f (TREE_OPERAND node i))
           (TREE_OPERAND_LENGTH node)).
  - intros i Hi. by rewrite TREE_OPERAND_out_of_range.
  - apply NoDup_descent_slots.
Qed.

Lemma descent_slots_submseteq node :
  (descent_slots node ≫= λ i, f (TREE_OPERAND node i))
  ⊆+ operands node ≫= f.
Proof. rewrite operands_split. by apply submseteq_inserts_r. Qed.

Lemma descends_fully_all node :
  descends_fully node →
  (descent_slots node ≫= λ i, f (TREE_OPERAND node i))
  ≡ₚ operands node ≫= f.
Proof.
  intros Hfull. rewrite operands_split.
  assert (unlisted_slots node ≫= (λ i, f (TREE_OPERAND node i)) = [])
    as ->; [|by rewrite app_nil_r].
  induction Hfull as [|i idx Hi _ IH]; [done|].
  by rewrite bind_cons, IH, Hi, f_null.
Qed.
End closure.

Lemma all_nodes_unfold node :
  all_nodes node = node :: (operands node ≫= nodes_below).
Proof.
  destruct node as [code type locus cst slots]. cbn [all_nodes operands].
  f_equal. rewrite concat_map_bind. apply list_bind_ext; [|done].
  by intros [child|].
Qed.

Lemma descent_closure_unfold node :
  descent_closure node
  = node :: (descent_slots node ≫= λ i, closure_below (TREE_OPERAND node i)).
Proof.
  destruct node as [code type locus cst slots]. cbn [descent_closure].
  f_equal. apply list_bind_ext; [|done]. intros i.
  unfold TREE_OPERAND. cbn [operands].
  by rewrite (lookup_map_default
                (λ child,
                   match child with
                   | Some child => descent_closure child
                   | None => []
                   end)).
Qed.

(** The nodes entered are the descent closure of the body, in order. *)
Lemma visited_descent_closure input_location data node :
  visited (traverse_node input_location data node) = descent_closure node.
Proof.
  induction node as [code type locus cst slots IH] using tree_ind.
  rewrite visited_traverse_node, descent_closure_unfold. f_equal.
  apply list_bind_ext; [|done]. intros i.
  destruct (TREE_OPERAND _ i) as [child|] eqn:Hchild; [|done].
  cbn. rewrite Forall_forall in IH.
  apply (IH (Some child)); [|done].
  by apply TREE_OPERAND_child in Hchild.
Qed.

Lemma bind_submseteq_pointwise {A B} (f g : A → list B) (l : list A) :
  Forall (λ x, f x ⊆+ g x) l → l ≫= f ⊆+ l ≫= g.
Proof.
  induction 1 as [|x l Hx _ IH]; [done|].
  rewrite !bind_cons. by apply submseteq_app.
Qed.

Lemma bind_Permutation_pointwise {A B} (f g : A → list B) (l : list A) :
  Forall (λ x, f x ≡ₚ g x) l → l ≫= f ≡ₚ l ≫= g.
Proof.
  induction 1 as [|x l Hx _ IH]; [done|].
  rewrite !bind_cons. by f_equiv.
Qed.

Lemma descent_closure_submseteq node : descent_closure node ⊆+ all_nodes node.
Proof.
  induction node as [code type locus cst slots IH] using tree_ind.
  rewrite descent_closure_unfold, all_nodes_unfold.
  apply submseteq_skip.
  etrans; [by apply (descent_slots_submseteq closure_below)|].
  apply bind_submseteq_pointwise. cbn [operands].
  eapply Forall_impl; [exact IH|].
  intros [child|] Hchild; [by apply Hchild|done].
Qed.

Lemma all_nodes_children node child :
  Some child ∈ operands node → all_nodes child ⊆ all_nodes node.
Proof.
  intros Hchild n Hn. rewrite (all_nodes_unfold node).
  apply elem_of_cons. right. apply list_elem_of_bind.
  by exists (Some child).
Qed.

Lemma descent_closure_full node :
  Forall descends_fully (all_nodes node) →
  descent_closure node ≡ₚ all_nodes node.
Proof.
  induction node as [code type locus cst slots IH] using tree_ind.
  intros Hfull.
  rewrite descent_closure_unfold, all_nodes_unfold.
  apply Permutation_skip.
  rewrite (descends_fully_all closure_below); [|done|].
  - apply bind_Permutation_pointwise. cbn [operands].
    rewrite Forall_forall in IH. apply Forall_forall.
    intros [child|] Hchild; [|done].
    apply (IH (Some child)); [done..|].
    rewrite Forall_forall in Hfull. apply Forall_forall.
    intros n Hn. apply Hfull. by eapply all_nodes_children.
  - rewrite Forall_forall in Hfull. apply Hfull.
    rewrite all_nodes_unfold. by left.
Qed.

(** C1, as amended.  A body here is tree-shaped: every node has one parent,
    so there is no cycle, and a node the compiler refers to from several
    places stands once for each reference.  On such a body the walk
    returns, and enters no node more often than the node occurs in the
    body.  It enters every node that is reachable from the body along the
    edges of the descent table (all operands of the listed expression kinds,
    of statement lists and of unlisted kinds of class expression; the named
    parts of the listed statement kinds; the initializer of a declaration).
    When every node of the body has all its children in slots the table
    lists, the nodes entered are the nodes of the body, each once. *)
Theorem walk_enters_descent_closure input_location data body :
  let entered :=
    visited (traverse_and_check_ast input_location (Some body) data) in
  entered ⊆+ all_nodes body
  ∧ descent_closure body ⊆+ entered
  ∧ (Forall descends_fully (all_nodes body) → entered ≡ₚ all_nodes body).
Proof.
  cbn [traverse_and_check_ast]. rewrite visited_descent_closure.
  split; [apply descent_closure_submseteq|]. split; [done|].
  apply descent_closure_full.
Qed.

Lemma walk_enters_descent_closure_witness :
  visited
    (traverse_and_check_ast 1 (Some (Fixture.int_to_float_body 1))
       (Fixture.data void_type_node))
  ≡ₚ all_nodes (Fixture.int_to_float_body 1).
Proof.
  refine (proj2 (proj2 (walk_enters_descent_closure 1
                          (Fixture.data void_type_node)
                          (Fixture.int_to_float_body 1))) _).
  repeat constructor.
Defined.

(** C1, as stated, fails: the assignment under the negation and the value
    under the return are nodes of the body the walk never enters. *)
Lemma walk_misses_nodes :
  Fixture.assign_i64 ∈ all_nodes Fixture.body_with_unvisited_nodes
  ∧ (Fixture.assign_i64
     ∉ visited
         (traverse_and_check_ast 1 (Some Fixture.body_with_unvisited_nodes)
            (Fixture.data Fixture.int32_t)))
  ∧ length
      (visited
         (traverse_and_check_ast 1 (Some Fixture.body_with_unvisited_nodes)
            (Fixture.data Fixture.int32_t))) = 4
  ∧ length (all_nodes Fixture.body_with_unvisited_nodes) = 12
  ∧ ¬ (visited
         (traverse_and_check_ast 1 (Some Fixture.body_with_unvisited_nodes)
            (Fixture.data Fixture.int32_t))
       ≡ₚ all_nodes Fixture.body_with_unvisited_nodes).
Proof.
  split_and!.
  - vm_compute. do 3 right. left.
  - vm_compute. intros Hin.
    repeat (apply elem_of_cons in Hin as [Hin|Hin]; [discriminate Hin|]).
    by apply elem_of_nil in Hin.
  - reflexivity.
  - reflexivity.
  - intros Hperm%Permutation_length. vm_compute in Hperm. discriminate.
Qed.

(** The walk keeps no record of the nodes it has entered: a declaration
    referred to from the variable list of its block and from its declaration
    statement is entered, and its initializer checked, once for each of the
    two references. *)
Example shared_declaration_entered_per_reference :
  filter (λ node, TREE_CODE node = VAR_DECL
                  ∧ DECL_SOURCE_LOCATION node = 41%N)
    (visited
       (traverse_and_check_ast 1 (Some Fixture.block_declaring_x)
          (Fixture.data void_type_node)))
  = [Fixture.declared_x; Fixture.declared_x]
  ∧ diagnostics
      (traverse_and_check_ast 1 (Some Fixture.block_declaring_x)
         (Fixture.data void_type_node))
    = [warning_at 41 "int64_t" "int32_t" "variable initialization";
       warning_at 41 "int64_t" "int32_t" "variable initialization"].
Proof. split; reflexivity. Qed.

(** * Further properties of the plugin *)

(** ** Resolving the callee *)

Lemma peel_callee_function_decl callee fn_decl :
  peel_callee callee = Some fn_decl →
  TREE_CODE fn_decl = FUNCTION_DECL ∧ fn_decl ∈ all_nodes callee.
Proof.
  induction callee as [code type locus cst slots IH] using tree_ind.
  cbn [peel_callee]. intros Hpeel.
  assert (∀ child rest, slots = Some child :: rest →
            peel_callee child = Some fn_decl →
            TREE_CODE fn_decl = FUNCTION_DECL
            ∧ fn_decl ∈ all_nodes (Node code type locus cst slots))
    as Hstep.
  { intros child rest -> Hchild.
    inversion_clear IH as [|?? Hhead _].
    destruct (Hhead child eq_refl Hchild) as [Hcode Hin].
    split; [done|]. rewrite all_nodes_unfold. cbn [operands].
    rewrite bind_cons. apply elem_of_cons. right.
    apply elem_of_app. by left. }
  destruct code; try done;
    try (destruct slots as [|[child|] rest]; try done; by eapply Hstep).
  injection Hpeel as <-. split; [done|].
  rewrite all_nodes_unfold. by left.
Qed.

(** X1.  When [get_fndecl_from_callee_expr] returns a node, that node is a
    [FUNCTION_DECL] and is a node of the callee expression it was handed. *)
Theorem get_fndecl_from_callee_expr_sound callee fn_decl :
  get_fndecl_from_callee_expr (Some callee) = Some fn_decl →
  TREE_CODE fn_decl = FUNCTION_DECL ∧ fn_decl ∈ all_nodes callee.
Proof. apply peel_callee_function_decl. Qed.

Lemma get_fndecl_from_callee_expr_sound_witness :
  TREE_CODE Fixture.takes_32bit_float = FUNCTION_DECL
  ∧ Fixture.takes_32bit_float
    ∈ all_nodes
        (Node ADDR_EXPR (Some Fixture.function_pointer) 56 0
           [Some Fixture.takes_32bit_float]).
Proof.
  apply (get_fndecl_from_callee_expr_sound
           (Node ADDR_EXPR (Some Fixture.function_pointer) 56 0
              [Some Fixture.takes_32bit_float])
           Fixture.takes_32bit_float).
  reflexivity.
Defined.

Lemma peel_callee_of_function_decl fn_decl :
  TREE_CODE fn_decl = FUNCTION_DECL → peel_callee fn_decl = Some fn_decl.
Proof.
  destruct fn_decl as [code type locus cst slots]. cbn. by intros ->.
Qed.

(** X2.  Resolution looks through address-of, no-op and conversion nodes:
    wrapping the callee in one more of them does not change the result, and
    resolving the result again returns it unchanged. *)
Theorem get_fndecl_from_callee_expr_wrappers
    code type locus cst callee rest :
  callee_wrapper code = true →
  get_fndecl_from_callee_expr
    (Some (Node code type locus cst (Some callee :: rest)))
  = get_fndecl_from_callee_expr (Some callee)
  ∧ get_fndecl_from_callee_expr
      (get_fndecl_from_callee_expr (Some callee))
    = get_fndecl_from_callee_expr (Some callee).
Proof.
  intros Hcode. split.
  - cbn. by destruct code.
  - destruct (get_fndecl_from_callee_expr (Some callee)) as [fn_decl|] eqn:Hfn;
      [|done].
    apply peel_callee_function_decl in Hfn as [Hfn _].
    by apply peel_callee_of_function_decl.
Qed.

Lemma get_fndecl_from_callee_expr_wrappers_witness :
  get_fndecl_from_callee_expr
    (Some (Node NOP_EXPR (Some Fixture.function_pointer) 56 0
             [Some (Node ADDR_EXPR (Some Fixture.function_pointer) 56 0
                      [Some Fixture.takes_32bit_float])]))
  = get_fndecl_from_callee_expr
      (Some (Node ADDR_EXPR (Some Fixture.function_pointer) 56 0
               [Some Fixture.takes_32bit_float])).
Proof.
  refine (proj1 (get_fndecl_from_callee_expr_wrappers NOP_EXPR
                   (Some Fixture.function_pointer) 56 0
                   (Node ADDR_EXPR (Some Fixture.function_pointer) 56 0
                      [Some Fixture.takes_32bit_float]) [] _)).
  reflexivity.
Defined.

(** ** The origin type *)

(** X3.  At the top an initialization stands for its value: the origin type
    of an [INIT_EXPR] is the origin type of its second operand, as long as
    that operand is not itself an [INIT_EXPR] and its conversion wrappers end
    in a node. *)
Theorem get_original_type_of_initialization expr value innermost :
  TREE_CODE expr = INIT_EXPR →
  TREE_OPERAND expr 1 = Some value →
  TREE_CODE value ≠ INIT_EXPR →
  peel_conversions value = Some innermost →
  get_original_type (Some expr) = get_original_type (Some value)
  ∧ get_original_type (Some expr) = TREE_TYPE innermost.
Proof.
  intros Hcode Hvalue Hvalue_code Hpeel.
  rewrite (get_original_type_init _ _ Hcode Hvalue), Hpeel.
  by rewrite (get_original_type_peeled _ _ Hvalue_code Hpeel).
Qed.

Lemma get_original_type_of_initialization_witness :
  get_original_type (Some Fixture.init_retval)
  = get_original_type (Some (Fixture.var Fixture.int64_t)).
Proof.
  refine (proj1 (get_original_type_of_initialization Fixture.init_retval
                   (Fixture.var Fixture.int64_t)
                   (Fixture.var Fixture.int64_t) _ _ _ _));
    try reflexivity.
  discriminate.
Defined.

(** X4.  When the conversion wrappers end in a null operand, the origin type
    falls back to the type of the expression the function was handed, not to
    the type of the last wrapper reached. *)
Theorem get_original_type_null_operand ws code type locus cst rest :
  Forall pure_conversion ws →
  conversion_wrapper code = true →
  let dangling := Node code type locus cst (None :: rest) in
  get_original_type (Some (wrap_all ws dangling))
  = TREE_TYPE (wrap_all ws dangling).
Proof.
  intros Hpure Hcode dangling. unfold get_original_type.
  assert (TREE_CODE (wrap_all ws dangling) ≠ INIT_EXPR) as Hnot_init.
  { destruct Hpure as [|w ws Hw _].
    - by apply conversion_wrapper_not_init.
    - by apply wrap_all_code. }
  rewrite bool_decide_eq_false_2 by done. cbn [mbind option_bind].
  rewrite peel_conversions_wrap_all by done.
  cbn. by rewrite Hcode.
Qed.

Lemma get_original_type_null_operand_witness :
  get_original_type
    (Some (wrap_all [Fixture.to_float]
             (Node FLOAT_EXPR (Some Fixture.double) 4 0 [None])))
  = Some Fixture.float.
Proof.
  apply (get_original_type_null_operand [Fixture.to_float] FLOAT_EXPR
           (Some Fixture.double) 4 0 []).
  - repeat constructor.
  - reflexivity.
Defined.

(** ** One check *)

Lemma check_narrowing_conversion_cases loc to_type from_expr context :
  check_narrowing_conversion loc to_type from_expr context = []
  ∨ ∃ to from,
      to_type = Some to ∧ get_original_type from_expr = Some from
      ∧ is_error_mark_node to = false ∧ is_error_mark_node from = false
      ∧ is_narrowing from to
      ∧ check_narrowing_conversion loc to_type from_expr context
        = [warning_at loc (get_type_name (Some from))
             (get_type_name (Some to)) context].
Proof.
  destruct to_type as [to|];
    [|left; apply check_narrowing_conversion_null_target].
  destruct (get_original_type from_expr) as [from|] eqn:Horigin;
    [|left; by apply check_narrowing_conversion_null_origin].
  destruct (is_error_mark_node to) eqn:Hto.
  { left. unfold check_narrowing_conversion. by rewrite Horigin, Hto. }
  destruct (is_error_mark_node from) eqn:Hfrom.
  { left. unfold check_narrowing_conversion.
    by rewrite Horigin, Hto, Hfrom. }
  destruct (decide (TYPE_PRECISION from = 64%N
                    ∧ TYPE_PRECISION to = 32%N
                    ∧ kind_of from ≠ kind_other
                    ∧ kind_of to ≠ kind_other)) as [Hyes|Hno].
  - right. exists to, from.
    assert (is_narrowing from to) as Hnarrow.
    { apply is_narrowing_codes. cbn.
      destruct Hyes as (? & ? & Hkf & Hkt). unfold kind_of in Hkf, Hkt.
      split_and!; try done.
      - destruct (TYPE_CODE (TYPE_MAIN_VARIANT from)); auto; done.
      - destruct (TYPE_CODE (TYPE_MAIN_VARIANT to)); auto; done. }
    split_and!; try done.
    by apply check_narrowing_conversion_detects.
  - left. eapply check_narrowing_conversion_passes; [done|].
    intros Hnarrow. apply Hno.
    unfold is_narrowing, same_kind_narrowing, wide_integer_to_narrow_float,
      wide_float_to_narrow_integer, bit_width in Hnarrow.
    intuition congruence.
Qed.

Lemma check_narrowing_conversion_length loc to_type from_expr context :
  length (check_narrowing_conversion loc to_type from_expr context) ≤ 1.
Proof.
  destruct (check_narrowing_conversion_cases loc to_type from_expr context)
    as [-> | (to & from & _ & _ & _ & _ & _ & ->)]; cbn; lia.
Qed.

Lemma check_narrowing_conversion_labelled loc to_type from_expr context :
  Forall (λ d, diag_location d = loc ∧ diag_context d = context)
    (check_narrowing_conversion loc to_type from_expr context).
Proof.
  destruct (check_narrowing_conversion_cases loc to_type from_expr context)
    as [-> | (to & from & _ & _ & _ & _ & _ & ->)]; by repeat constructor.
Qed.

(** X5.  One check reports at most one diagnostic, and a diagnostic it
    reports carries the location and the context label it was called with. *)
Theorem check_narrowing_conversion_at_most_one
    loc to_type from_expr context :
  length (check_narrowing_conversion loc to_type from_expr context) ≤ 1
  ∧ Forall (λ d, diag_location d = loc ∧ diag_context d = context)
      (check_narrowing_conversion loc to_type from_expr context).
Proof.
  split.
  - apply check_narrowing_conversion_length.
  - apply check_narrowing_conversion_labelled.
Qed.

(** X6.  A diagnostic is never reported for an indeterminate or
    non-narrowing pair: when a check reports one, the destination type and
    the origin type are present, neither is the error placeholder, the pair
    matches one of the three patterns, and the two names in the diagnostic
    are the names of these two types. *)
Theorem check_narrowing_conversion_sound
    loc to_type from_expr context d :
  d ∈ check_narrowing_conversion loc to_type from_expr context →
  ∃ to from,
    to_type = Some to ∧ get_original_type from_expr = Some from
    ∧ is_error_mark_node to = false ∧ is_error_mark_node from = false
    ∧ is_narrowing from to
    ∧ d = warning_at loc (get_type_name (Some from))
            (get_type_name (Some to)) context.
Proof.
  destruct (check_narrowing_conversion_cases loc to_type from_expr context)
    as [-> | (to & from & Hto & Hfrom & ? & ? & ? & ->)].
  - by intros ?%elem_of_nil.
  - intros ->%list_elem_of_singleton. by exists to, from.
Qed.

Lemma check_narrowing_conversion_sound_witness :
  ∃ to from,
    Some Fixture.float = Some to
    ∧ get_original_type (Some (Fixture.var Fixture.int64_t)) = Some from
    ∧ is_error_mark_node to = false ∧ is_error_mark_node from = false
    ∧ is_narrowing from to
    ∧ warning_at 7 "int64_t" "float" "assignment"
      = warning_at 7 (get_type_name (Some from)) (get_type_name (Some to))
          "assignment".
Proof.
  apply (check_narrowing_conversion_sound 7 (Some Fixture.float)
           (Some (Fixture.var Fixture.int64_t)) "assignment"
           (warning_at 7 "int64_t" "float" "assignment")).
  vm_compute. left.
Defined.

(** X7.  Explicit and implicit conversions around a value do not change
    what a check reports: under any stack of pure conversion wrappers the
    check of an expression, other than a bare initialization, against a
    destination type is the check of the expression itself.  A narrowing
    behind a cast is still reported, and a widening followed by a narrowing
    back to the original width is not. *)
Theorem check_narrowing_conversion_through_casts
    loc to_type context ws e innermost :
  Forall pure_conversion ws →
  TREE_CODE e ≠ INIT_EXPR →
  peel_conversions e = Some innermost →
  check_narrowing_conversion loc to_type (Some (wrap_all ws e)) context
  = check_narrowing_conversion loc to_type (Some e) context.
Proof.
  intros Hpure Hcode Hpeel. unfold check_narrowing_conversion.
  rewrite (get_original_type_peeled e innermost) by done.
  destruct ws as [|w ws].
  - cbn [wrap_all foldr]. by rewrite (get_original_type_peeled e innermost).
  - rewrite (get_original_type_peeled (wrap_all (w :: ws) e) innermost);
      [done| |].
    + apply wrap_all_code. by inversion Hpure.
    + by rewrite peel_conversions_wrap_all.
Qed.

Lemma check_narrowing_conversion_through_casts_witness :
  check_narrowing_conversion 41 (Some Fixture.int32_t)
    (Some (wrap_all [Fixture.to_int32] (Fixture.var Fixture.int64_t)))
    "variable initialization"
  = check_narrowing_conversion 41 (Some Fixture.int32_t)
      (Some (Fixture.var Fixture.int64_t)) "variable initialization".
Proof.
  apply (check_narrowing_conversion_through_casts 41 (Some Fixture.int32_t)
           "variable initialization" [Fixture.to_int32]
           (Fixture.var Fixture.int64_t) (Fixture.var Fixture.int64_t)).
  - repeat constructor.
  - discriminate.
  - reflexivity.
Defined.

(** ** The arguments of a call *)

Lemma length_check_call_args loc arg_types args :
  length (check_call_args loc arg_types args)
  ≤ length (fixed_parameters arg_types) `min` length args.
Proof.
  revert arg_types.
  induction args as [|arg args IH]; intros [|param_type chain];
    cbn [check_call_args fixed_parameters length]; try lia.
  destruct (is_void_type_node param_type); cbn [length]; [lia|].
  rewrite length_app. specialize (IH chain).
  assert (length
            match param_type with
            | Some _ =>
                check_narrowing_conversion loc param_type (Some arg)
                  "function argument"
            | None => []
            end ≤ 1); [|lia].
  destruct param_type; [|cbn; lia].
  apply check_narrowing_conversion_length.
Qed.

Lemma check_call_args_take loc arg_types args :
  check_call_args loc arg_types args
  = check_call_args loc arg_types
      (take (length (fixed_parameters arg_types)) args).
Proof.
  revert arg_types.
  induction args as [|arg args IH]; intros [|param_type chain];
    cbn [check_call_args fixed_parameters length take]; try done.
  - by rewrite take_nil.
  - destruct (is_void_type_node param_type) eqn:Hvoid; [done|].
    cbn [length take check_call_args]. f_equal. apply IH.
Qed.

(** X8.  Arguments beyond the fixed parameters are never checked: surplus
    arguments, among them the variadic ones, can be dropped from a call
    without changing its diagnostics, and a call reports at most one
    diagnostic per pair of a fixed parameter and a supplied argument. *)
Theorem surplus_arguments_unchecked loc arg_types args :
  check_call_args loc arg_types args
  = check_call_args loc arg_types
      (take (length (fixed_parameters arg_types)) args)
  ∧ length (check_call_args loc arg_types args)
    ≤ length (fixed_parameters arg_types) `min` length args.
Proof.
  split; [apply check_call_args_take|apply length_check_call_args].
Qed.


(** ** The diagnostics of a whole walk *)

Lemma bind_bind {A B C} (f : A → list B) (g : B → list C) (l : list A) :
  (l ≫= f) ≫= g = l ≫= λ x, f x ≫= g.
Proof.
  induction l as [|x l IH]; [done|].
  by rewrite !bind_cons, bind_app, IH.
Qed.

(** The diagnostics of a walk, node by node. *)
Lemma diagnostics_by_node input_location data node :
  diagnostics (traverse_node input_location data node)
  = descent_closure node ≫= λ n, check_current_node input_location n data.
Proof.
  induction node as [code type locus cst slots IH] using tree_ind.
  rewrite diagnostics_traverse_node, descent_closure_unfold, bind_cons.
  f_equal. rewrite bind_bind. apply list_bind_ext; [|done]. intros i.
  destruct (TREE_OPERAND _ i) as [child|] eqn:Hchild; [|done].
  cbn. rewrite Forall_forall in IH.
  apply (IH (Some child)); [|done].
  by apply TREE_OPERAND_child in Hchild.
Qed.

(** X9.  The diagnostics of a walk are the checks made at the nodes the walk
    enters, one node after the other in the order of entry: a node's own
    check comes before the checks of the nodes below it, and nothing else is
    reported. *)
Theorem diagnostics_follow_entries input_location data body :
  let trace := traverse_and_check_ast input_location (Some body) data in
  diagnostics trace
  = visited trace ≫= λ node, check_current_node input_location node data.
Proof.
  cbn [traverse_and_check_ast].
  by rewrite diagnostics_by_node, visited_descent_closure.
Qed.

Lemma check_current_node_no_checkpoint input_location node data :
  checkpoint_code (TREE_CODE node) = false →
  check_current_node input_location node data = [].
Proof. unfold check_current_node. by destruct (TREE_CODE node). Qed.

(** X10.  A body in which no node the descent reaches is a variable
    declaration, an assignment, a call or a return yields no diagnostic. *)
Theorem no_checkpoint_no_diagnostic input_location data body :
  Forall (λ node, checkpoint_code (TREE_CODE node) = false)
    (descent_closure body) →
  diagnostics (traverse_and_check_ast input_location (Some body) data) = [].
Proof.
  intros Hnone. cbn [traverse_and_check_ast]. rewrite diagnostics_by_node.
  induction Hnone as [|node nodes Hnode _ IH]; [done|].
  by rewrite bind_cons, check_current_node_no_checkpoint, IH.
Qed.

Lemma no_checkpoint_no_diagnostic_witness :
  diagnostics
    (traverse_and_check_ast 1
       (Some (Node EXPR_STMT (Some void_type_node) 90 0
                [Some (Node PLUS_EXPR (Some Fixture.int32_t) 90 0
                         [Some (Fixture.convert Fixture.int32_t
                                  (Fixture.literal Fixture.int64_t 5));
                          Some (Fixture.literal Fixture.int32_t 1)])]))
       (Fixture.data Fixture.int32_t)) = [].
Proof.
  apply no_checkpoint_no_diagnostic. repeat constructor.
Defined.

Lemma check_call_args_labelled loc arg_types args :
  Forall (λ d, diag_location d = loc ∧ diag_context d = "function argument")
    (check_call_args loc arg_types args).
Proof.
  revert arg_types.
  induction args as [|arg args IH]; intros [|param_type chain];
    cbn [check_call_args]; try by constructor.
  destruct (is_void_type_node param_type); [by constructor|].
  apply Forall_app. split; [|apply IH].
  destruct param_type; [|by constructor].
  apply check_narrowing_conversion_labelled.
Qed.

Lemma is_narrowing_target from to :
  is_error_mark_node to = false → is_narrowing from to →
  narrow_target (Some to).
Proof.
  intros Hto Hnarrow. exists to.
  unfold is_narrowing, same_kind_narrowing, wide_integer_to_narrow_float,
    wide_float_to_narrow_integer in Hnarrow.
  split_and!; try done; intuition congruence.
Qed.

(** Where a diagnostic of the check at one node comes from. *)
Lemma check_current_node_origin input_location node data :
  Forall
    (λ d,
       (TREE_CODE node = VAR_DECL
        ∧ diag_context d = "variable initialization"
        ∧ diag_location d = DECL_SOURCE_LOCATION node)
       ∨ (TREE_CODE node = MODIFY_EXPR ∧ diag_context d = "assignment"
          ∧ diag_location d = location_of input_location node)
       ∨ (TREE_CODE node = CALL_EXPR ∧ diag_context d = "function argument"
          ∧ diag_location d = location_of input_location node)
       ∨ (TREE_CODE node = RETURN_EXPR ∧ diag_context d = "return value"
          ∧ diag_location d = location_of input_location node
          ∧ narrow_target (function_return_type data)))
    (check_current_node input_location node data).
Proof.
  unfold check_current_node.
  fold (location_of input_location node).
  destruct (TREE_CODE node) eqn:Hcode; try by constructor.
  - destruct (DECL_INITIAL node); [|by constructor].
    eapply Forall_impl; [apply check_narrowing_conversion_labelled|].
    intros d [? ?]. left. done.
  - eapply Forall_impl; [apply check_narrowing_conversion_labelled|].
    intros d [? ?]. right. left. done.
  - destruct (get_fndecl_from_callee_expr _); [|by constructor].
    eapply Forall_impl; [apply check_call_args_labelled|].
    intros d [? ?]. right. right. left. done.
  - destruct (TREE_OPERAND node 0) as [retval|]; [|by constructor].
    apply Forall_forall. intros d Hd. do 3 right.
    pose proof (check_narrowing_conversion_labelled
                  (location_of input_location node)
                  (function_return_type data) (Some retval) "return value")
      as Hlabel.
    rewrite Forall_forall in Hlabel. destruct (Hlabel d Hd) as [? ?].
    split_and!; try done.
    destruct (check_narrowing_conversion_cases
                (location_of input_location node)
                (function_return_type data) (Some retval) "return value")
      as [Hnil | (to & from & -> & _ & Hto & _ & Hnarrow & _)].
    + rewrite Hnil in Hd. by apply elem_of_nil in Hd.
    + by eapply is_narrowing_target.
Qed.

(** A property of every diagnostic of a walk, from the check that made
    it. *)
Lemma diagnostics_Forall input_location data body (P : diagnostic → Prop) :
  (∀ node d,
     node ∈ descent_closure body →
     d ∈ check_current_node input_location node data → P d) →
  Forall P
    (diagnostics (traverse_and_check_ast input_location (Some body) data)).
Proof.
  intros Hnode. cbn [traverse_and_check_ast]. rewrite diagnostics_by_node.
  apply Forall_forall. intros d (node & Hd & Hin)%list_elem_of_bind.
  by eapply Hnode.
Qed.

(** X11.  Every diagnostic of a walk carries one of the four context
    labels. *)
Theorem diagnostics_contexts input_location data body :
  Forall (λ d, diag_context d ∈ context_labels)
    (diagnostics (traverse_and_check_ast input_location (Some body) data)).
Proof.
  apply diagnostics_Forall. intros node d _ Hd.
  pose proof (check_current_node_origin input_location node data) as Horigin.
  rewrite Forall_forall in Horigin.
  destruct (Horigin d Hd)
    as [(_ & -> & _) | [(_ & -> & _) | [(_ & -> & _) | (_ & -> & _)]]];
    unfold context_labels; rewrite !elem_of_cons; auto 10.
Qed.

(** X12.  A return is reported only into a 32-bit numeric return type: when
    the function's return type is absent, the error placeholder, not
    numeric or not 32 bits wide, no diagnostic of the walk carries the label
    of the return check. *)
Theorem no_return_diagnostic_without_narrow_target
    input_location data body :
  ¬ narrow_target (function_return_type data) →
  Forall (λ d, diag_context d ≠ "return value")
    (diagnostics (traverse_and_check_ast input_location (Some body) data)).
Proof.
  intros Htarget. apply diagnostics_Forall. intros node d _ Hd.
  pose proof (check_current_node_origin input_location node data) as Horigin.
  rewrite Forall_forall in Horigin.
  destruct (Horigin d Hd)
    as [(_ & -> & _) | [(_ & -> & _) | [(_ & -> & _) | (_ & _ & _ & ?)]]];
    done.
Qed.

Lemma no_return_diagnostic_without_narrow_target_witness :
  Forall (λ d, diag_context d ≠ "return value")
    (diagnostics
       (traverse_and_check_ast 1 (Some Fixture.return_i64)
          (Fixture.data Fixture.int64_t))).
Proof.
  apply no_return_diagnostic_without_narrow_target.
  intros (to & [= <-] & _ & _ & Hwidth). discriminate Hwidth.
Defined.

Lemma check_current_node_data input_location node data data' :
  TREE_CODE node ≠ RETURN_EXPR →
  check_current_node input_location node data
  = check_current_node input_location node data'.
Proof. unfold check_current_node. by destruct (TREE_CODE node). Qed.

(** X13.  The return type in the walk data matters at returns only: two
    walks of a body in which the descent reaches no return report the same
    diagnostics whatever return types they are given. *)
Theorem diagnostics_independent_of_return_type
    input_location data data' body :
  Forall (λ node, TREE_CODE node ≠ RETURN_EXPR) (descent_closure body) →
  diagnostics (traverse_and_check_ast input_location (Some body) data)
  = diagnostics (traverse_and_check_ast input_location (Some body) data').
Proof.
  intros Hnone. cbn [traverse_and_check_ast]. rewrite !diagnostics_by_node.
  apply Forall_bind_ext. eapply Forall_impl; [exact Hnone|].
  intros node Hnode. by apply check_current_node_data.
Qed.

Lemma diagnostics_independent_of_return_type_witness :
  diagnostics
    (traverse_and_check_ast 1 (Some Fixture.assign_i64)
       (Fixture.data Fixture.int32_t))
  = diagnostics
      (traverse_and_check_ast 1 (Some Fixture.assign_i64)
         (Fixture.data void_type_node)).
Proof.
  apply diagnostics_independent_of_return_type.
  repeat constructor; discriminate.
Defined.

Lemma location_of_cases input_location node :
  location_of input_location node = input_location
  ∨ location_of input_location node = DECL_SOURCE_LOCATION node.
Proof.
  unfold location_of. case_bool_decide; [by left|right].
  destruct node as [code type locus cst slots]. cbn in *.
  by destruct (IS_EXPR_CODE_CLASS _).
Qed.

Lemma location_of_known input_location node :
  input_location ≠ UNKNOWN_LOCATION →
  location_of input_location node ≠ UNKNOWN_LOCATION.
Proof. unfold location_of. by case_bool_decide. Qed.

(** X14.  Every diagnostic of a walk is placed at the fallback location or
    at the location stored in a node the walk entered. *)
Theorem diagnostics_locations input_location data body :
  let trace := traverse_and_check_ast input_location (Some body) data in
  Forall
    (λ d, diag_location d = input_location
          ∨ ∃ node, node ∈ visited trace
                    ∧ diag_location d = DECL_SOURCE_LOCATION node)
    (diagnostics trace).
Proof.
  intros trace. unfold trace at 1. cbn [traverse_and_check_ast].
  rewrite visited_descent_closure.
  apply diagnostics_Forall. intros node d Hnode Hd.
  pose proof (check_current_node_origin input_location node data) as Horigin.
  rewrite Forall_forall in Horigin.
  destruct (location_of_cases input_location node) as [Hloc|Hloc];
    destruct (Horigin d Hd)
      as [(_ & _ & ->) | [(_ & _ & ->) | [(_ & _ & ->) | (_ & _ & -> & _)]]];
    rewrite ?Hloc; eauto.
Qed.

(** X15.  The fallback location covers assignments, calls and returns, not
    initializations: with a known fallback location no diagnostic other than
    a variable initialization is placed at the unknown location, while the
    check of a variable declaration does not depend on the fallback
    location at all. *)
Theorem fallback_location_scope input_location input_location' data :
  (input_location ≠ UNKNOWN_LOCATION →
   ∀ body,
     Forall (λ d, diag_context d ≠ "variable initialization" →
                  diag_location d ≠ UNKNOWN_LOCATION)
       (diagnostics
          (traverse_and_check_ast input_location (Some body) data)))
  ∧ (∀ node,
       TREE_CODE node = VAR_DECL →
       check_current_node input_location node data
       = check_current_node input_location' node data).
Proof.
  split.
  - intros Hknown body. apply diagnostics_Forall. intros node d _ Hd.
    pose proof (check_current_node_origin input_location node data)
      as Horigin.
    rewrite Forall_forall in Horigin.
    destruct (Horigin d Hd)
      as [(_ & -> & _) | [(_ & _ & ->) | [(_ & _ & ->) | (_ & _ & -> & _)]]];
      intros; try done; by apply location_of_known.
  - intros node Hcode. unfold check_current_node. by rewrite Hcode.
Qed.

Lemma fallback_location_scope_witness :
  Forall (λ d, diag_context d ≠ "variable initialization" →
               diag_location d ≠ UNKNOWN_LOCATION)
    (diagnostics
       (traverse_and_check_ast 1
          (Some (Node MODIFY_EXPR (Some Fixture.int32_t) 0 0
                   [Some (Fixture.var Fixture.int32_t);
                    Some (Fixture.var Fixture.int64_t)]))
          (Fixture.data void_type_node))).
Proof.
  refine (proj1 (fallback_location_scope 1 2 (Fixture.data void_type_node))
            _ _).
  discriminate.
Defined.

(** ** Kinds the walk looks through, and kinds it stops at *)

(** X16.  An operator, wrapper or statement-list node that is no checkpoint
    adds no diagnostic of its own and loses none: the diagnostics of its walk
    are those of the walks of its operands, in order.  In particular the
    diagnostics of a statement list split where the list is split. *)
Theorem diagnostics_of_operands input_location data code type locus cst :
  operand_kind code = true ∨ code = STATEMENT_LIST →
  checkpoint_code code = false →
  let walk child :=
    diagnostics (traverse_and_check_ast input_location child data) in
  (∀ slots, walk (Some (Node code type locus cst slots)) = slots ≫= walk)
  ∧ (∀ slots slots',
       walk (Some (Node code type locus cst (slots ++ slots')))
       = walk (Some (Node code type locus cst slots))
         ++ walk (Some (Node code type locus cst slots'))).
Proof.
  intros Hkind Hcheck walk.
  assert (∀ slots,
            walk (Some (Node code type locus cst slots)) = slots ≫= walk)
    as Hall.
  { intros slots. unfold walk at 1. cbn [traverse_and_check_ast].
    rewrite diagnostics_all_operands.
    - by rewrite check_current_node_no_checkpoint.
    - unfold descent_slots. cbn [TREE_CODE].
      destruct Hkind as [-> | ->]; done. }
  split; [done|]. intros slots slots'. by rewrite !Hall, bind_app.
Qed.

Lemma diagnostics_of_operands_witness :
  diagnostics
    (traverse_and_check_ast 1
       (Some (Node STATEMENT_LIST (Some void_type_node) 0 0
                ([Some Fixture.assign_i64] ++ [Some Fixture.return_i64])))
       (Fixture.data Fixture.int32_t))
  = diagnostics
      (traverse_and_check_ast 1
         (Some (Node STATEMENT_LIST (Some void_type_node) 0 0
                  [Some Fixture.assign_i64]))
         (Fixture.data Fixture.int32_t))
    ++ diagnostics
         (traverse_and_check_ast 1
            (Some (Node STATEMENT_LIST (Some void_type_node) 0 0
                     [Some Fixture.return_i64]))
            (Fixture.data Fixture.int32_t)).
Proof.
  refine (proj2 (diagnostics_of_operands 1 (Fixture.data Fixture.int32_t)
                   STATEMENT_LIST (Some void_type_node) 0 0 _ _) _ _).
  - by right.
  - reflexivity.
Defined.

(** X17.  The fallback for a code the plugin does not name: when the class
    of the code is not expression the node is a leaf, the walk enters it,
    reports nothing and enters nothing below it, whatever its operands hold;
    when the class is expression the node reports nothing itself and the
    walk continues into every operand in order. *)
Theorem unlisted_code_fallback
    input_location data class uid type locus cst slots :
  let node := Node (unlisted_code class uid) type locus cst slots in
  (class ≠ tcc_expression →
   traverse_and_check_ast input_location (Some node) data
   = [Traversing node])
  ∧ (class = tcc_expression →
     traverse_and_check_ast input_location (Some node) data
     = Traversing node
         :: (slots
               ≫= λ child, traverse_and_check_ast input_location child data)).
Proof.
  intros node. cbn [traverse_and_check_ast]. rewrite traverse_node_unfold.
  unfold node, descent_slots, check_current_node, TREE_OPERAND_LENGTH,
    TREE_OPERAND.
  cbn [TREE_CODE operand_kind TREE_CODE_CLASS operands fmap list_fmap app].
  split; intros Hclass.
  - by rewrite bool_decide_eq_false_2.
  - rewrite bool_decide_eq_true_2 by done. f_equal.
    apply (bind_seq_lookup
             (λ child, traverse_and_check_ast input_location child data)).
Qed.

Lemma unlisted_code_fallback_witness :
  traverse_and_check_ast 1
    (Some (Node (unlisted_code tcc_binary 7) (Some Fixture.int32_t) 3 0
             [Some Fixture.assign_i64; Some Fixture.assign_i64]))
    (Fixture.data Fixture.int32_t)
  = [Traversing
       (Node (unlisted_code tcc_binary 7) (Some Fixture.int32_t) 3 0
          [Some Fixture.assign_i64; Some Fixture.assign_i64])].
Proof.
  refine (proj1 (unlisted_code_fallback 1 (Fixture.data Fixture.int32_t)
                   tcc_binary 7 (Some Fixture.int32_t) 3 0
                   [Some Fixture.assign_i64; Some Fixture.assign_i64]) _).
  discriminate.
Defined.

(** ** The driver *)

(** X18.  The callback leaves an empty trace exactly when it is handed no
    function or a function without a saved body.  For a function with a
    body it enters that body first and enters only nodes of the body, none
    more often than it occurs there; and when the type of the result
    declaration is not a 32-bit numeric type no return is reported. *)
Theorem pre_genericize_callback_scope input_location gcc_data :
  (pre_genericize_callback input_location gcc_data = []
   ↔ ∀ fndecl, gcc_data = Some fndecl → DECL_SAVED_TREE fndecl = None)
  ∧ ∀ fndecl body,
      gcc_data = Some fndecl →
      DECL_SAVED_TREE fndecl = Some body →
      let trace := pre_genericize_callback input_location gcc_data in
      head trace = Some (Traversing body)
      ∧ visited trace ⊆+ all_nodes body
      ∧ (¬ narrow_target (DECL_RESULT fndecl ≫= TREE_TYPE) →
         Forall (λ d, diag_context d ≠ "return value") (diagnostics trace)).
Proof.
  split.
  - destruct gcc_data as [fndecl|]; cbn; [|by split].
    destruct (DECL_SAVED_TREE fndecl) as [body|] eqn:Hbody.
    + rewrite traverse_node_unfold. split; [done|].
      intros Hnone. specialize (Hnone fndecl eq_refl). congruence.
    + split; [|done]. by intros _ ? [= <-].
  - intros fndecl body -> Hbody trace. unfold trace.
    cbn [pre_genericize_callback]. rewrite Hbody.
    cbn [traverse_and_check_ast]. split_and!.
    + by rewrite traverse_node_unfold.
    + rewrite visited_descent_closure. apply descent_closure_submseteq.
    + intros Htarget.
      apply (diagnostics_Forall input_location
               {| function_return_type := DECL_RESULT fndecl ≫= TREE_TYPE |}
               body).
      intros node d _ Hd.
      pose proof (check_current_node_origin input_location node
                    {| function_return_type :=
                         DECL_RESULT fndecl ≫= TREE_TYPE |}) as Horigin.
      rewrite Forall_forall in Horigin.
      destruct (Horigin d Hd)
        as [(_ & -> & _) | [(_ & -> & _) | [(_ & -> & _) | (_ & _ & _ & ?)]]];
        done.
Qed.

Lemma pre_genericize_callback_scope_witness :
  head
    (pre_genericize_callback 1
       (Some {| DECL_SAVED_TREE := Some Fixture.return_i64;
                DECL_RESULT :=
                  Some (Node RESULT_DECL (Some Fixture.int32_t) 7 0 [None])
             |}))
  = Some (Traversing Fixture.return_i64).
Proof.
  refine (proj1 (proj2 (pre_genericize_callback_scope 1
                          (Some {| DECL_SAVED_TREE := Some Fixture.return_i64;
                                   DECL_RESULT :=
                                     Some (Node RESULT_DECL
                                             (Some Fixture.int32_t) 7 0
                                             [None]) |}))
                   _ Fixture.return_i64 eq_refl eq_refl)).
Defined.

